(** * discordshim_rs: the relay core of [src/server.rs]

    A shallow embedding of the TCP relay of [server.rs]: the length-prefixed
    frame format read by [connection_loop] and written by [_send_data], the
    frame dispatch of [handle_task], the session registry of [run], the
    routing of [_send_data], the presence throttle [update_presence] and
    [extract_mentions].  The helpers of [embedbuilder.rs] and the protobuf
    code of [messages.rs] are not part of the sources; where a claim needs
    them they are modelled from the specification and said so. *)

From Stdlib Require Import ZArith Lia List Bool Ascii String DecimalString.
Import ListNotations.

Open Scope Z_scope.

(** ** Bytes and the [byteorder] little-endian [u32] *)

(** A byte is a [Z] in [0, 256); a stream or buffer is a list of bytes. *)
Definition u8 := Z.

Definition bytes := list u8.

(** [LittleEndian::write_u32]: the four bytes of [n], least significant first. *)
Definition write_u32 (n : Z) : bytes :=
  [n mod 256; (n / 256) mod 256; (n / 65536) mod 256; (n / 16777216) mod 256].

(** [LittleEndian::read_u32] on a 4-byte buffer. *)
Definition read_u32 (buf : bytes) : Z :=
  match buf with
  | [b0; b1; b2; b3] => b0 + b1 * 256 + b2 * 65536 + b3 * 16777216
  | _ => 0
  end.

(** [x as u32] for a non-negative [usize]: wraps modulo [2^32]. *)
Definition as_u32 (x : Z) : Z := x mod 2 ^ 32.

(** [read_exact] on a stream holding exactly the bytes [s] before EOF:
    either the first [n] bytes and the rest, or an [UnexpectedEof] error. *)
Definition read_exact (n : nat) (s : bytes) : option (bytes * bytes) :=
  if Nat.leb n (List.length s) then Some (firstn n s, skipn n s) else None.

(** How one iteration of [connection_loop] can fail while reading a frame. *)
Inductive read_error := ReadLengthFailed | ReadDataFailed.

(** The reading half of one iteration of [connection_loop]
    (lines 144-162): four length bytes, then exactly that many bytes. *)
Definition read_frame (s : bytes) : (bytes * bytes) + read_error :=
  match read_exact 4 s with
  | None => inr ReadLengthFailed
  | Some (length_buf, rest) =>
      let length := Z.to_nat (read_u32 length_buf) in
      match read_exact length rest with
      | None => inr ReadDataFailed
      | Some (buf, rest') => inl (buf, rest')
      end
  end.

(** The bytes [_send_data] writes on a client stream when both of its
    [write_all] calls succeed: [length_buf] then [data]. *)
Definition write_frame (data : bytes) : bytes :=
  let length := as_u32 (Z.of_nat (List.length data)) in
  write_u32 length ++ data.

(** ** [extract_mentions] *)

Module Mentions.

Local Open Scope string_scope.

(** The class [[0-9a-zA-Z]] of the regex [(<@[0-9a-zA-Z]*>)]. *)
Definition is_alnum (c : ascii) : bool :=
  let n := nat_of_ascii c in
  (Nat.leb 48 n && Nat.leb n 57) || (Nat.leb 97 n && Nat.leb n 122)
  || (Nat.leb 65 n && Nat.leb n 90).

(** The longest prefix of [s] in [[0-9a-zA-Z]*] and what follows it. *)
Fixpoint alnum_span (s : string) : string * string :=
  match s with
  | String c s' =>
      if is_alnum c then let (w, r) := alnum_span s' in (String c w, r)
      else ("", s)
  | EmptyString => ("", "")
  end.

(** The match of [<@[0-9a-zA-Z]*>] starting at the first character of [s],
    if any.  The greedy star can only be followed by [>], which is not in
    the class, so backtracking never finds a shorter match. *)
Definition match_at (s : string) : option string :=
  match s with
  | String c1 (String c2 r) =>
      if Ascii.eqb c1 "<" && Ascii.eqb c2 "@" then
        let (w, r') := alnum_span r in
        match r' with
        | String c3 _ => if Ascii.eqb c3 ">" then Some ("<@" ++ w ++ ">") else None
        | EmptyString => None
        end
      else None
  | _ => None
  end.

Fixpoint sdrop (n : nat) (s : string) : string :=
  match n, s with
  | O, _ => s
  | S n', String _ s' => sdrop n' s'
  | S _, EmptyString => EmptyString
  end.

(** [Regex::captures_iter]: the leftmost match, then the search resumes
    right after it; with no match at the current position it moves on by
    one character.  [fuel] bounds the number of steps. *)
Fixpoint captures_iter (fuel : nat) (s : string) : list string :=
  match fuel with
  | O => []
  | S fuel' =>
      match s with
      | EmptyString => []
      | String _ s' =>
          match match_at s with
          | Some m => m :: captures_iter fuel' (sdrop (String.length m) s)
          | None => captures_iter fuel' s'
          end
      end
  end.

Definition captures (s : string) : list string :=
  captures_iter (S (String.length s)) s.

(** [extract_mentions e]: every capture of the title, then of the
    description, each appended to [mentions] followed by one space. *)
Definition extract_mentions (title description : string) : string :=
  let mentions := "" in
  let mentions :=
    fold_left (fun mentions mention => mentions ++ mention ++ " ")
      (captures title) mentions in
  fold_left (fun mentions mention => mentions ++ mention ++ " ")
    (captures description) mentions.

(** The claim's reading: every substring of [s] matching the pattern, in
    the order of its starting position. *)
Fixpoint all_matches (s : string) : list string :=
  match s with
  | EmptyString => []
  | String _ s' =>
      match match_at s with
      | Some m => m :: all_matches s'
      | None => all_matches s'
      end
  end.

Definition joined_with_spaces (ms : list string) : string :=
  fold_right (fun m acc => m ++ " " ++ acc) "" ms.

End Mentions.

(** ** Decimal rendering of [usize] values by [format!] *)

Definition nat_to_string (n : nat) : string :=
  NilEmpty.string_of_uint (Nat.to_uint n).

(** ** [split_file] of [embedbuilder.rs] *)

Module Embedbuilder.

Local Open Scope string_scope.

(** [slice::chunks]: consecutive pieces of [c] bytes, the last one shorter. *)
Fixpoint chunks_fuel (fuel : nat) (c : nat) (l : bytes) : list bytes :=
  match fuel with
  | O => []
  | S fuel' =>
      match l with
      | [] => []
      | _ => firstn c l :: chunks_fuel fuel' c (skipn c l)
      end
  end.

Definition chunks (c : nat) (l : bytes) : list bytes :=
  chunks_fuel (List.length l) c l.

Fixpoint label_parts (name : string) (m i : nat) (parts : list bytes)
  : list (string * bytes) :=
  match parts with
  | [] => []
  | p :: ps =>
      (name ++ " (part " ++ nat_to_string (S i) ++ "/" ++ nat_to_string m ++ ")", p)
        :: label_parts name m (S i) ps
  end.

(** Modelled from the spec: [split_file] of [embedbuilder.rs], which is not
    in the sources.  Section 4.3: a file at or under the attachment ceiling
    [ceiling] is one chunk labelled with the unmodified filename; a larger
    one is cut into ordered pieces of at most [ceiling] bytes, labelled
    "name (part N/M)". *)
Definition split_file (ceiling : nat) (filename : string) (filedata : bytes)
  : list (string * bytes) :=
  if Nat.leb (List.length filedata) ceiling then [(filename, filedata)]
  else
    let parts := chunks ceiling filedata in
    label_parts filename (List.length parts) 0 parts.

End Embedbuilder.

(** ** The server: sessions, dispatch, routing, presence *)

Module Server.

(** [u64] arithmetic of the release build: [+=] wraps modulo [2^64]. *)
Definition wrap64 (x : Z) : Z := x mod 2 ^ 64.

(** The fields of [DiscordSettings] other than the TCP stream; a
    [ChannelId] is its [u64]. *)
Record DiscordSettings := {
  channel : Z;
  prefix : string;
  cycle_time : Z;
  enabled : bool;
  num_messages : Z;
  total_data : Z
}.

(** The value [run] stores for a fresh connection (lines 88-96). *)
Definition new_settings : DiscordSettings :=
  {| channel := 0; prefix := ""%string; cycle_time := 0; enabled := false;
     num_messages := 0; total_data := 0 |}.

(** [messages::ProtoFile], [messages::TextField], [messages::EmbedContent]. *)
Record ProtoFile := { filename : string; data : bytes }.

Record TextField := { tf_title : string; tf_text : string; tf_inline : bool }.

Record EmbedContent := {
  title : string;
  description : string;
  color : Z;
  author : string;
  textfield : list TextField;
  snapshot : option ProtoFile
}.

(** [messages::Settings]. *)
Record SettingsMsg := {
  channel_id : Z;
  command_prefix : string;
  new_cycle_time : Z;
  presence_enabled : bool
}.

(** [messages::response::Field]; [messages::Response] has it as an optional
    field. *)
Inductive Field :=
| FFile (f : ProtoFile)
| FEmbed (e : EmbedContent)
| FPresence (presence : string)
| FSettings (s : SettingsMsg).

Record Response := { field : option Field }.

(** Calls made on the chat platform.  [SendFiles] and [SendEmbed] are
    [ChannelId::send_files] / [send_message] and may fail; the two presence
    calls return nothing. *)
Inductive event :=
| SendFiles (ch : Z) (content : string) (file : bytes)
| SendEmbed (ch : Z) (e : EmbedContent) (mentions : string)
            (attachment : option ProtoFile)
| SetActivityPlaying (text : string)
| SetActivityStreaming (text : string).

(** [Result<(), ()>] of [handle_task]. *)
Inductive task_result := Ok | Err.

(** Why [connection_loop] returned; [OutOfFuel] only bounds the model. *)
Inductive exit_reason :=
| ExitRead (e : read_error)
| ExitParse
| ExitHandle
| OutOfFuel.

Section Relay.

(** The generated protobuf code and the [embedbuilder] helpers, which the
    sources only call. *)
Variable parse_from_bytes : bytes -> option Response.
Variable compute_size : Response -> Z.
Variable build_embeds : EmbedContent -> list EmbedContent.
Variable split_file : string -> bytes -> list (string * bytes).
(** Whether a platform call succeeds. *)
Variable deliver : event -> bool.
(** Whether [env::var("CLOUD_SERVER")] is [Ok]. *)
Variable cloud : bool.

(** The file arm of [handle_task]: one [send_files] per chunk, returning
    [Err] at the first failure. *)
Fixpoint send_chunks (ch : Z) (files : list (string * bytes))
  : list event * task_result :=
  match files with
  | [] => ([], Ok)
  | (label, chunk) :: rest =>
      let ev := SendFiles ch label chunk in
      if deliver ev then
        let (evs, r) := send_chunks ch rest in (ev :: evs, r)
      else ([ev], Err)
  end.

(** The embed arm of [handle_task]: one send per built embed, with the
    snapshot attached when present, returning [Err] at the first failure. *)
Fixpoint send_embeds (ch : Z) (embeds : list EmbedContent)
  : list event * task_result :=
  match embeds with
  | [] => ([], Ok)
  | e :: rest =>
      let mentions := Mentions.extract_mentions (title e) (description e) in
      let ev := SendEmbed ch e mentions (snapshot e) in
      if deliver ev then
        let (evs, r) := send_embeds ch rest in (ev :: evs, r)
      else ([ev], Err)
  end.

(** [handle_task] (lines 184-297). *)
Definition handle_task (settings : DiscordSettings) (response : Response)
  : DiscordSettings * list event * task_result :=
  let settings :=
    {| channel := channel settings; prefix := prefix settings;
       cycle_time := cycle_time settings; enabled := enabled settings;
       num_messages := wrap64 (num_messages settings + 1);
       total_data := wrap64 (total_data settings + compute_size response) |} in
  match field response with
  | None => (settings, [], Ok)
  | Some (FFile protofile) =>
      let files := split_file (filename protofile) (data protofile) in
      let (evs, r) := send_chunks (channel settings) files in
      (settings, evs, r)
  | Some (FEmbed response_embed) =>
      let (evs, r) := send_embeds (channel settings) (build_embeds response_embed) in
      (settings, evs, r)
  | Some (FPresence presence) =>
      (settings, (if cloud then [] else [SetActivityPlaying presence]), Ok)
  | Some (FSettings ns) =>
      ({| channel := channel_id ns; prefix := command_prefix ns;
          cycle_time := new_cycle_time ns; enabled := presence_enabled ns;
          num_messages := num_messages settings;
          total_data := total_data settings |}, [], Ok)
  end.

(** [connection_loop] (lines 137-182) on a stream holding [stream] before
    EOF: read a frame, parse it, dispatch it, repeat. *)
Fixpoint connection_loop_fuel (fuel : nat) (settings : DiscordSettings)
  (stream : bytes) : DiscordSettings * list event * exit_reason :=
  match fuel with
  | O => (settings, [], OutOfFuel)
  | S fuel' =>
      match read_frame stream with
      | inr e => (settings, [], ExitRead e)
      | inl (buf, rest) =>
          match parse_from_bytes buf with
          | None => (settings, [], ExitParse)
          | Some response =>
              match handle_task settings response with
              | (settings', evs, Err) => (settings', evs, ExitHandle)
              | (settings', evs, Ok) =>
                  let '(settings'', evs', ex) :=
                    connection_loop_fuel fuel' settings' rest in
                  (settings'', evs ++ evs', ex)
              end
          end
      end
  end.

(** Every iteration consumes at least the four length bytes, so
    [length stream + 1] iterations always reach the end of the stream. *)
Definition connection_loop (settings : DiscordSettings) (stream : bytes)
  : DiscordSettings * list event * exit_reason :=
  connection_loop_fuel (S (List.length stream)) settings stream.

(** [update_presence] (lines 117-135) with the clock in nanoseconds since
    [UNIX_EPOCH]: [None] is the panic of [duration_since(..).unwrap()] when
    the clock is behind the recorded time; otherwise the new recorded time
    and the platform calls made. *)
Definition update_presence (last_update now : Z) (num_servers : nat)
  : option (Z * list event) :=
  if now <? last_update then None
  else if (now - last_update) / 1000000000 <? 60 then Some (last_update, [])
  else
    let evs :=
      if cloud then
        [SetActivityStreaming ("to " ++ nat_to_string num_servers ++ " instances")%string]
      else [] in
    Some (now, evs).

(** The shared state of [Server]: the handles (the [Arc] identities) in
    [clients], the contents of each [Arc<DiscordSettings>], and
    [last_presense_update]. *)
Record ServerState := {
  clients : list nat;
  store : nat -> DiscordSettings;
  last_presense_update : Z
}.

Definition set_store (st : nat -> DiscordSettings) (h : nat) (s : DiscordSettings)
  : nat -> DiscordSettings :=
  fun x => if Nat.eqb x h then s else st x.

(** [clients.insert(0, settings)]. *)
Definition insert_front (h : nat) (cs : list nat) : list nat := h :: cs.

(** [clients.retain(|item| !Arc::ptr_eq(item, &settings))]. *)
Definition retain_not_ptr_eq (h : nat) (cs : list nat) : list nat :=
  filter (fun item => negb (Nat.eqb item h)) cs.

(** The task [run] spawns for the connection with handle [h] (lines 81-112),
    run without interleaving: insert, presence, [connection_loop], retain,
    presence.  [t_open] and [t_close] are the clock at the two presence
    calls.  The model starts once the accepted stream and its peer address
    have been obtained: the [unwrap]s of [tcpstream] and [peer_addr()]
    (lines 84-85), which panic before the session is registered, are not
    part of it; [None] is a panic of one of the two [update_presence]
    calls. *)
Definition connection_task (h : nat) (st : ServerState) (t_open t_close : Z)
  (stream : bytes) : option (ServerState * list event * exit_reason) :=
  let clients1 := insert_front h (clients st) in
  let store1 := set_store (store st) h new_settings in
  match update_presence (last_presense_update st) t_open (List.length clients1) with
  | None => None
  | Some (last1, ev1) =>
      let '(settings', evs, ex) := connection_loop (store1 h) stream in
      let clients2 := retain_not_ptr_eq h clients1 in
      match update_presence last1 t_close (List.length clients2) with
      | None => None
      | Some (last2, ev2) =>
          Some ({| clients := clients2; store := set_store store1 h settings';
                   last_presense_update := last2 |},
                ev1 ++ evs ++ ev2, ex)
      end
  end.

(** [_send_data] (lines 308-332).  [write_all h buf] tells whether writing
    [buf] on the stream of [h] succeeds.  The result is the list of
    successful writes, per handle, and [found], the number of clients both
    of whose writes succeeded ([i32] in the source; it never exceeds the
    number of open connections). *)
Section Routing.

Variable write_all : nat -> bytes -> bool.

Fixpoint send_clients (ch : Z) (length_buf data : bytes) (store : nat -> DiscordSettings)
  (cs : list nat) (found : Z) : list (nat * bytes) * Z :=
  match cs with
  | [] => ([], found)
  | client :: cs' =>
      if (negb (ch =? 0)) && (ch =? channel (store client)) then
        if write_all client length_buf then
          if write_all client data then
            let (w, f) := send_clients ch length_buf data store cs' (found + 1) in
            ((client, length_buf) :: (client, data) :: w, f)
          else
            let (w, f) := send_clients ch length_buf data store cs' found in
            ((client, length_buf) :: w, f)
        else send_clients ch length_buf data store cs' found
      else send_clients ch length_buf data store cs' found
  end.

Definition _send_data (st : ServerState) (ch : Z) (data : bytes)
  : list (nat * bytes) * Z :=
  let length := as_u32 (Z.of_nat (List.length data)) in
  let length_buf := write_u32 length in
  send_clients ch length_buf data (store st) (clients st) 0.

End Routing.

End Relay.

End Server.

(** * [main.rs] *)

Module Handler.

(** The parts of a [serenity] [Message] that [Handler::message] reads.
    [m_own] and [m_private] are [is_own(ctx.cache)] and [is_private()];
    [m_embed_titles] holds the [title] of each embed; each attachment is its
    [filename] and the result of [download()], [None] for a failed
    download. *)
Record Message := {
  m_channel : Z;
  m_content : string;
  m_author : Z;
  m_own : bool;
  m_private : bool;
  m_embed_titles : list (option string);
  m_attachments : list (string * option bytes)
}.

(** The [Server] methods the handler calls. *)
Inductive action :=
| SendStats (ch : Z)
| SendCommand (ch : Z) (user : Z) (command : string)
| SendFile (ch : Z) (user : Z) (filename : string) (file : bytes).

(** The attachment loop (lines 78-90): [download().await.unwrap()] panics
    on a failed download, which ends the handler; the boolean is [false]
    then. *)
Fixpoint forward_attachments (ch user : Z) (atts : list (string * option bytes))
  : list action * bool :=
  match atts with
  | [] => ([], true)
  | (filename, None) :: _ => ([], false)
  | (filename, Some filedata) :: rest =>
      let (acts, ok) := forward_attachments ch user rest in
      (SendFile ch user filename filedata :: acts, ok)
  end.

(** [Handler::message] (lines 34-91) for the health-check channel [hc]:
    the calls made on the server, in order, and whether the handler ran
    to its end without panicking. *)
Definition message (hc : Z) (m : Message) : list action * bool :=
  let stats :=
    if (m_channel m =? hc) && String.eqb (m_content m) "/stats"
    then [SendStats (m_channel m)] else [] in
  let (rest, ok) :=
    if m_own m then
      if m_channel m =? hc then
        match m_embed_titles m with
        | [Some flag] => ([SendCommand (m_channel m) (m_author m) flag], true)
        | _ => ([], true)
        end
      else ([], true)
    else if m_private m then ([], true)
    else
      let (files, ok) := forward_attachments (m_channel m) (m_author m) (m_attachments m) in
      (SendCommand (m_channel m) (m_author m) (m_content m) :: files, ok) in
  (stats ++ rest, ok).

(** What [main] (lines 104-126) runs; [ArgsPanic] is the panic of the
    [env::args()] iterator on an argument that is not valid Unicode. *)
Inductive run_mode := RunServe | RunHealthcheck | Usage | ArgsPanic.

Section Main.

(** [str::to_lowercase], Unicode case mapping included. *)
Variable to_lowercase : string -> string.

(** The loop over [env::args()], the program name first; an argument is
    [None] when it is not valid Unicode, which makes the iterator panic as
    the loop reaches it.  The first argument whose lower case is ["serve"]
    or ["healthcheck"] decides, as [exit] ends the process; with none, the
    usage error is logged. *)
Fixpoint main_mode (args : list (option string)) : run_mode :=
  match args with
  | [] => Usage
  | None :: _ => ArgsPanic
  | Some argument :: rest =>
      if String.eqb (to_lowercase argument) "serve" then RunServe
      else if String.eqb (to_lowercase argument) "healthcheck" then RunHealthcheck
      else main_mode rest
  end.

End Main.

End Handler.

(** * Properties *)

(** ** The frame format *)

Module FrameFacts.

Lemma write_u32_length (n : Z) : List.length (write_u32 n) = 4%nat.
Proof. reflexivity. Qed.

Lemma read_u32_write_u32 (n : Z) : 0 <= n < 2 ^ 32 -> read_u32 (write_u32 n) = n.
Proof.
  intros Hn. unfold read_u32, write_u32.
  replace 65536 with (256 * 256) by reflexivity.
  replace 16777216 with (256 * 256 * 256) by reflexivity.
  rewrite <- !Z.div_div by lia.
  assert (E : forall x, 0 <= x ->
            x = 256 * (x / 256) + x mod 256 /\ 0 <= x mod 256 < 256 /\ 0 <= x / 256).
  { intros x Hx. split; [apply Z.div_mod; lia|].
    split; [apply Z.mod_pos_bound; lia | apply Z.div_pos; lia]. }
  destruct (E n) as (E1 & B1 & P1); [lia|].
  destruct (E (n / 256)) as (E2 & B2 & P2); [lia|].
  destruct (E (n / 256 / 256)) as (E3 & B3 & P3); [lia|].
  destruct (E (n / 256 / 256 / 256)) as (E4 & B4 & P4); [lia|].
  lia.
Qed.

Lemma read_exact_app (n : nat) (a b : bytes) :
  List.length a = n -> read_exact n (a ++ b) = Some (a, b).
Proof.
  intros <-. unfold read_exact. rewrite length_app.
  replace (Nat.leb (List.length a) (List.length a + List.length b)) with true
    by (symmetry; apply Nat.leb_le; lia).
  rewrite firstn_app, skipn_app, firstn_all, Nat.sub_diag, skipn_all.
  simpl. rewrite app_nil_r. reflexivity.
Qed.

Lemma read_exact_short (n : nat) (s : bytes) :
  (List.length s < n)%nat -> read_exact n s = None.
Proof.
  intros H. unfold read_exact.
  replace (Nat.leb n (List.length s)) with false
    by (symmetry; apply Nat.leb_gt; lia).
  reflexivity.
Qed.

Lemma write_frame_length (data : bytes) :
  List.length (write_frame data) = (4 + List.length data)%nat.
Proof. unfold write_frame. rewrite length_app. reflexivity. Qed.

(** The frame [_send_data] writes for [data], as [connection_loop] reads it:
    the length field holds [len mod 2^32]. *)
Lemma read_write_frame (data rest : bytes) :
  read_frame (write_frame data ++ rest)
  = let n := Z.to_nat (as_u32 (Z.of_nat (List.length data))) in
    match read_exact n (data ++ rest) with
    | None => inr ReadDataFailed
    | Some (buf, rest') => inl (buf, rest')
    end.
Proof.
  unfold read_frame, write_frame. rewrite <- app_assoc, read_exact_app by reflexivity.
  rewrite read_u32_write_u32; [reflexivity|].
  unfold as_u32. apply Z.mod_pos_bound. lia.
Qed.

Lemma frame_length_in_range (data : bytes) :
  Z.of_nat (List.length data) < 2 ^ 32 ->
  Z.to_nat (as_u32 (Z.of_nat (List.length data))) = List.length data.
Proof.
  intros H. unfold as_u32. rewrite Z.mod_small by lia. apply Nat2Z.id.
Qed.

End FrameFacts.

(** ** Claim C4: framing round trip *)

Module Framing.

Import FrameFacts.

(** A payload of exactly [2^32] bytes: its length field wraps to 0. *)
Lemma read_write_frame_wrapped (data : bytes) :
  List.length data = Z.to_nat (2 ^ 32) ->
  read_frame (write_frame data) = inl ([], data).
Proof.
  intros Hlen.
  rewrite <- (app_nil_r (write_frame data)), read_write_frame.
  assert (Hz : as_u32 (Z.of_nat (List.length data)) = 0).
  { rewrite Hlen, Z2Nat.id by lia. unfold as_u32. apply Z_mod_same_full. }
  cbv zeta. rewrite Hz, app_nil_r. reflexivity.
Qed.

(** C4 as stated fails: a payload of [2^32] zero bytes is read back as an
    empty payload, the whole payload being left unread on the stream. *)
Lemma frame_roundtrip_counterexample :
  read_frame (write_frame (repeat 0 (Z.to_nat (2 ^ 32))))
  <> inl (repeat 0 (Z.to_nat (2 ^ 32)), []).
Proof.
  set (N := Z.to_nat (2 ^ 32)).
  assert (HN : N <> 0%nat) by (unfold N; lia).
  rewrite read_write_frame_wrapped by apply repeat_length.
  destruct N as [|N']; [congruence|].
  cbn [repeat]. discriminate.
Qed.

(** C4 (amended): for every payload shorter than [2^32] bytes, the
    frame written by [_send_data] is read back by [connection_loop] as
    exactly that payload, and every proper prefix of it (truncated by at
    least one byte) makes the read fail.  For a payload of [2^32] bytes or
    more, the length field holds the length modulo [2^32] (the [as u32]
    cast), and the read returns only that many leading bytes, fewer than
    were written, leaving the rest on the stream. *)
Theorem frame_roundtrip (data : bytes) :
  (Z.of_nat (List.length data) < 2 ^ 32 ->
   read_frame (write_frame data) = inl (data, []) /\
   (forall k : nat,
      (1 <= k <= List.length (write_frame data))%nat ->
      exists e, read_frame (firstn (List.length (write_frame data) - k)
                              (write_frame data)) = inr e)) /\
  (2 ^ 32 <= Z.of_nat (List.length data) ->
   let n := Z.to_nat (Z.of_nat (List.length data) mod 2 ^ 32) in
   read_frame (write_frame data) = inl (firstn n data, skipn n data) /\
   (n < List.length data)%nat).
Proof.
  split.
  - intros Hlen. split.
    + rewrite <- (app_nil_r (write_frame data)), read_write_frame.
      cbv zeta. rewrite frame_length_in_range by exact Hlen.
      rewrite read_exact_app by reflexivity. reflexivity.
    + intros k Hk. rewrite write_frame_length in *.
      destruct (Nat.lt_ge_cases (4 + List.length data - k) 4) as [Hs | Hl].
      * exists ReadLengthFailed. unfold read_frame.
        rewrite read_exact_short; [reflexivity|].
        rewrite length_firstn, write_frame_length. lia.
      * exists ReadDataFailed. unfold write_frame.
        rewrite firstn_app, write_u32_length.
        rewrite firstn_all2 by (rewrite write_u32_length; lia).
        unfold read_frame. rewrite read_exact_app by reflexivity.
        rewrite read_u32_write_u32 by (unfold as_u32; apply Z.mod_pos_bound; lia).
        change (as_u32 (Z.of_nat (List.length data))) with
          (as_u32 (Z.of_nat (List.length data))).
        rewrite frame_length_in_range by exact Hlen.
        rewrite read_exact_short; [reflexivity|].
        rewrite length_firstn. lia.
  - intros Hlen n.
    assert (Hn : (n < List.length data)%nat).
    { unfold n. pose proof (Z.mod_pos_bound (Z.of_nat (List.length data)) (2 ^ 32)
                              ltac:(lia)). lia. }
    split; [|exact Hn].
    rewrite <- (app_nil_r (write_frame data)), read_write_frame.
    cbv zeta. unfold as_u32. fold n. rewrite app_nil_r.
    unfold read_exact. destruct (Nat.leb_spec n (List.length data)); [reflexivity | lia].
Qed.

Lemma frame_roundtrip_witness :
  Z.of_nat (List.length [1; 2; 3]) < 2 ^ 32 /\
  read_frame (write_frame [1; 2; 3]) = inl ([1; 2; 3], []).
Proof.
  split; [vm_compute; reflexivity|].
  apply (proj1 (frame_roundtrip [1; 2; 3])). vm_compute. reflexivity.
Defined.

End Framing.

(** ** Claim C5: mention extraction *)

Module MentionFacts.

Import Mentions.

Local Open Scope string_scope.

Lemma str_app_assoc (a b c : string) : (a ++ b) ++ c = a ++ (b ++ c).
Proof. induction a as [|x a IH]; simpl; [reflexivity | now rewrite IH]. Qed.

Lemma str_app_nil_r (a : string) : a ++ "" = a.
Proof. induction a as [|x a IH]; simpl; [reflexivity | now rewrite IH]. Qed.

Lemma str_length_app (a b : string) :
  String.length (a ++ b) = (String.length a + String.length b)%nat.
Proof. induction a as [|x a IH]; simpl; [reflexivity | now rewrite IH]. Qed.

Lemma sdrop_app (u r : string) : sdrop (String.length u) (u ++ r) = r.
Proof. induction u as [|x u IH]; simpl; [reflexivity | exact IH]. Qed.

(** No character of [s] is ['<']. *)
Fixpoint no_lt (s : string) : Prop :=
  match s with
  | EmptyString => True
  | String c s' => c <> "<"%char /\ no_lt s'
  end.

Lemma no_lt_app (a b : string) : no_lt a -> no_lt b -> no_lt (a ++ b).
Proof. induction a as [|x a IH]; simpl; tauto. Qed.

Lemma alnum_not_lt (c : ascii) : is_alnum c = true -> c <> "<"%char.
Proof. intros H ->. discriminate H. Qed.

Lemma alnum_span_spec (s : string) :
  s = fst (alnum_span s) ++ snd (alnum_span s) /\ no_lt (fst (alnum_span s)).
Proof.
  induction s as [|c s IH]; simpl; [tauto|].
  destruct (is_alnum c) eqn:Ha.
  - destruct (alnum_span s) as [w r]. simpl in *. destruct IH as [E N].
    split; [now rewrite <- E | split; [now apply alnum_not_lt | exact N]].
  - simpl. tauto.
Qed.

Lemma match_at_some (s m : string) :
  match_at s = Some m ->
  exists u rest, s = String "<" (u ++ rest) /\ m = String "<" u /\ no_lt u.
Proof.
  destruct s as [|c1 [|c2 r]]; simpl; try discriminate.
  destruct (Ascii.eqb_spec c1 "<"); destruct (Ascii.eqb_spec c2 "@");
    simpl; try discriminate. subst c1 c2.
  pose proof (alnum_span_spec r) as [E N].
  destruct (alnum_span r) as [w r'] eqn:Hs. simpl in E, N.
  destruct r' as [|c3 rest]; try discriminate.
  destruct (Ascii.eqb_spec c3 ">"); try discriminate. subst c3.
  intros H. injection H as <-.
  exists ("@" ++ w ++ ">"), rest. split; [|split; [reflexivity|]].
  - rewrite E. simpl. now rewrite str_app_assoc.
  - split; [discriminate|]. simpl. apply no_lt_app; [exact N|].
    simpl. split; [discriminate | exact I].
Qed.

Lemma match_at_not_lt (c : ascii) (s : string) :
  c <> "<"%char -> match_at (String c s) = None.
Proof.
  intros H. destruct s as [|c2 r]; [reflexivity|]. simpl.
  destruct (Ascii.eqb_spec c "<"); [contradiction | reflexivity].
Qed.

Lemma all_matches_skip (u r : string) :
  no_lt u -> all_matches (u ++ r) = all_matches r.
Proof.
  induction u as [|c u IH]; cbn [append all_matches no_lt]; [reflexivity|].
  intros [Hc Hu].
  rewrite match_at_not_lt by exact Hc. apply IH, Hu.
Qed.

(** The leftmost-first scan of [captures_iter] finds every match. *)
Lemma captures_iter_all (fuel : nat) (s : string) :
  (String.length s < fuel)%nat -> captures_iter fuel s = all_matches s.
Proof.
  revert s. induction fuel as [|fuel IH]; intros s Hs; [lia|].
  destruct s as [|c s']; [reflexivity|].
  cbn [captures_iter all_matches].
  destruct (match_at (String c s')) as [m|] eqn:E.
  - destruct (match_at_some _ _ E) as (u & rest & Hs' & -> & Nu).
    injection Hs' as <- ->. f_equal.
    cbn [String.length sdrop]. rewrite sdrop_app, all_matches_skip by exact Nu.
    apply IH. simpl in Hs. rewrite str_length_app in Hs. lia.
  - apply IH. simpl in Hs. lia.
Qed.

Lemma captures_all (s : string) : captures s = all_matches s.
Proof. apply captures_iter_all. lia. Qed.

Lemma fold_mentions (l : list string) (acc : string) :
  fold_left (fun mentions mention => mentions ++ mention ++ " ") l acc
  = acc ++ joined_with_spaces l.
Proof.
  revert acc. induction l as [|m l IH]; intros acc; simpl.
  - now rewrite str_app_nil_r.
  - rewrite IH, !str_app_assoc. reflexivity.
Qed.

Lemma joined_app (l1 l2 : list string) :
  joined_with_spaces (l1 ++ l2) = joined_with_spaces l1 ++ joined_with_spaces l2.
Proof.
  induction l1 as [|m l IH]; simpl; [reflexivity|].
  rewrite IH, !str_app_assoc. reflexivity.
Qed.

(** C5: [extract_mentions] is the concatenation, title matches first and
    description matches next, each in order of position and each followed
    by one space, of every substring matching [<@[0-9a-zA-Z]*>], repeats
    kept; with no match it is the empty string; and the three unit tests of
    [server.rs] hold. *)
Theorem extract_mentions_spec :
  (forall title description : string,
     extract_mentions title description
     = joined_with_spaces (all_matches title ++ all_matches description)) /\
  (forall title description : string,
     all_matches title = [] -> all_matches description = [] ->
     extract_mentions title description = "") /\
  extract_mentions "<@12345678910> <@Everyone>" ""
  = "<@12345678910> <@Everyone> " /\
  extract_mentions "" "<@12345678910> <@Everyone>"
  = "<@12345678910> <@Everyone> ".
Proof.
  assert (Hgen : forall title description : string,
             extract_mentions title description
             = joined_with_spaces (all_matches title ++ all_matches description)).
  { intros t d. unfold extract_mentions.
    rewrite !fold_mentions, !captures_all, joined_app. reflexivity. }
  split; [exact Hgen|]. split.
  - intros t d Ht Hd. rewrite Hgen, Ht, Hd. reflexivity.
  - split; vm_compute; reflexivity.
Qed.

End MentionFacts.

(** ** Claim C6: file splitting *)

Module SplitFacts.

Import Embedbuilder.

Local Open Scope string_scope.

Lemma div_up_step (len c : nat) :
  (0 < c)%nat -> (1 <= len)%nat ->
  ((len + c - 1) / c = S ((len - c + c - 1) / c))%nat.
Proof.
  intros Hc Hl.
  replace (len + c - 1)%nat with (len - 1 + 1 * c)%nat by lia.
  rewrite Nat.div_add by lia.
  destruct (Nat.le_gt_cases c len) as [Hge | Hlt].
  - replace (len - c + c - 1)%nat with (len - 1)%nat by lia. lia.
  - replace (len - c + c - 1)%nat with (c - 1)%nat by lia.
    rewrite (Nat.div_small (c - 1)) by lia.
    rewrite (Nat.div_small (len - 1)) by lia. reflexivity.
Qed.

Lemma chunks_fuel_spec (c fuel : nat) (l : bytes) :
  (0 < c)%nat -> (List.length l <= fuel)%nat ->
  List.concat (chunks_fuel fuel c l) = l /\
  Forall (fun p => (List.length p <= c)%nat) (chunks_fuel fuel c l) /\
  List.length (chunks_fuel fuel c l) = ((List.length l + c - 1) / c)%nat.
Proof.
  intros Hc. revert l. induction fuel as [|fuel IH]; intros l Hl.
  - destruct l; [|simpl in Hl; lia]. simpl.
    split; [reflexivity | split; [constructor|]].
    symmetry. apply Nat.div_small. lia.
  - destruct l as [|b l'].
    + simpl. split; [reflexivity | split; [constructor|]].
      symmetry. apply Nat.div_small. lia.
    + cbn [chunks_fuel].
      set (l := b :: l') in *.
      destruct (IH (skipn c l)) as (E & F & L).
      { rewrite length_skipn. unfold l in *. cbn [List.length] in *. lia. }
      split; [|split].
      * simpl. rewrite E. apply firstn_skipn.
      * constructor; [rewrite length_firstn; lia | exact F].
      * change (List.length (firstn c l :: chunks_fuel fuel c (skipn c l))) with (S (List.length (chunks_fuel fuel c (skipn c l)))). rewrite L, length_skipn.
        rewrite (div_up_step (List.length l) c Hc) by (unfold l; cbn [List.length]; lia).
        reflexivity.
Qed.

Lemma label_parts_snd (name : string) (m i : nat) (ps : list bytes) :
  map snd (label_parts name m i ps) = ps.
Proof.
  revert i. induction ps as [|p ps IH]; intros i; simpl; [reflexivity|].
  now rewrite IH.
Qed.

(** C6 as stated fails on the empty file: [ceil(0/C) = 0], yet a file at
    or under the ceiling (as the empty one is) yields one chunk. *)
Lemma split_file_counterexample :
  List.length (split_file 10 "log.txt" []) <> ((0 + 10 - 1) / 10)%nat.
Proof. vm_compute. discriminate. Qed.

(** C6 (amended): for a ceiling [C > 0] and a file of [S] bytes,
    [split_file] yields [ceil(S/C)] chunks when [S >= 1] and a single empty
    chunk when [S = 0]; every chunk has at most [C] bytes; the chunks
    concatenated in order are the file; and a file of at most [C] bytes is
    the single chunk labelled with the unmodified filename. *)
Theorem split_file_spec (C : nat) (name : string) (filedata : bytes) :
  (0 < C)%nat ->
  List.length (split_file C name filedata)
  = (if Nat.eqb (List.length filedata) 0 then 1
     else (List.length filedata + C - 1) / C)%nat /\
  Forall (fun p => (List.length (snd p) <= C)%nat) (split_file C name filedata) /\
  List.concat (map snd (split_file C name filedata)) = filedata /\
  ((List.length filedata <= C)%nat -> split_file C name filedata = [(name, filedata)]).
Proof.
  intros HC. unfold split_file.
  destruct (Nat.leb_spec (List.length filedata) C) as [Hle | Hgt].
  - split; [|split; [|split]].
    + destruct (Nat.eqb_spec (List.length filedata) 0) as [H0|H0]; [reflexivity|].
      replace (List.length filedata + C - 1)%nat
        with (List.length filedata - 1 + 1 * C)%nat by lia.
      rewrite Nat.div_add, Nat.div_small by lia. reflexivity.
    + constructor; [exact Hle | constructor].
    + simpl. apply app_nil_r.
    + intros _. reflexivity.
  - destruct (chunks_fuel_spec C (List.length filedata) filedata HC (le_n _))
      as (E & F & L).
    fold (chunks C filedata) in E, F, L.
    split; [|split; [|split]].
    + rewrite <- (length_map snd), label_parts_snd, L.
      destruct (Nat.eqb_spec (List.length filedata) 0); [lia|reflexivity].
    + apply (Forall_map snd (fun q => (List.length q <= C)%nat)).
      rewrite label_parts_snd. exact F.
    + rewrite label_parts_snd. exact E.
    + intros H. lia.
Qed.

Lemma split_file_spec_witness :
  (0 < 4)%nat /\
  List.concat (map snd (split_file 4 "a.bin" [1; 2; 3; 4; 5; 6; 7; 8; 9; 10]))
  = [1; 2; 3; 4; 5; 6; 7; 8; 9; 10].
Proof.
  split; [lia|].
  apply (split_file_spec 4 "a.bin" [1; 2; 3; 4; 5; 6; 7; 8; 9; 10]). lia.
Defined.

End SplitFacts.

(** ** The dispatch loop: claims C1, C8, C10 *)

Module DispatchFacts.

Import Server.

Section Dispatch.

Variable parse_from_bytes : bytes -> option Response.
Variable compute_size : Response -> Z.
Variable build_embeds : EmbedContent -> list EmbedContent.
Variable split_file : string -> bytes -> list (string * bytes).
Variable deliver : event -> bool.
Variable cloud : bool.

Let handle := handle_task compute_size build_embeds split_file deliver cloud.
Let loop := connection_loop_fuel parse_from_bytes compute_size build_embeds
              split_file deliver cloud.

(** The settings after the two counter updates of lines 190-191. *)
Definition counted (settings : DiscordSettings) (response : Response)
  : DiscordSettings :=
  {| channel := channel settings; prefix := prefix settings;
     cycle_time := cycle_time settings; enabled := enabled settings;
     num_messages := wrap64 (num_messages settings + 1);
     total_data := wrap64 (total_data settings + compute_size response) |}.

(** The platform calls a [File] or [Embed] payload asks for, in order,
    when all of them succeed. *)
Definition payload_calls (settings : DiscordSettings) (response : Response)
  : list event :=
  match field response with
  | Some (FFile f) =>
      map (fun '(label, chunk) => SendFiles (channel settings) label chunk)
        (split_file (filename f) (data f))
  | Some (FEmbed e) =>
      map (fun e' => SendEmbed (channel settings) e'
                       (Mentions.extract_mentions (title e') (description e'))
                       (snapshot e'))
        (build_embeds e)
  | _ => []
  end.

Lemma send_chunks_failed (ch : Z) (files : list (string * bytes)) :
  forall evs r, send_chunks deliver ch files = (evs, r) ->
  (r = Err <-> exists ev, In ev evs /\ deliver ev = false).
Proof.
  induction files as [|[label chunk] files IH]; intros evs r H; simpl in H.
  - injection H as <- <-. split; [discriminate | intros (ev & [] & _)].
  - destruct (deliver (SendFiles ch label chunk)) eqn:D.
    + destruct (send_chunks deliver ch files) as [evs' r'] eqn:E.
      injection H as <- <-. rewrite (IH evs' r' eq_refl).
      split; intros (ev & Hin & Hd); exists ev.
      * split; [right; exact Hin | exact Hd].
      * destruct Hin as [<- | Hin]; [congruence | split; assumption].
    + injection H as <- <-. split; [intros _ | reflexivity].
      exists (SendFiles ch label chunk). split; [left; reflexivity | exact D].
Qed.

Lemma send_embeds_failed (ch : Z) (embeds : list EmbedContent) :
  forall evs r, send_embeds deliver ch embeds = (evs, r) ->
  (r = Err <-> exists ev, In ev evs /\ deliver ev = false).
Proof.
  induction embeds as [|e embeds IH]; intros evs r H; simpl in H.
  - injection H as <- <-. split; [discriminate | intros (ev & [] & _)].
  - set (ev0 := SendEmbed ch e (Mentions.extract_mentions (title e) (description e))
                  (snapshot e)) in H.
    destruct (deliver ev0) eqn:D.
    + destruct (send_embeds deliver ch embeds) as [evs' r'] eqn:E.
      injection H as <- <-. rewrite (IH evs' r' eq_refl).
      split; intros (ev & Hin & Hd); exists ev.
      * split; [right; exact Hin | exact Hd].
      * destruct Hin as [<- | Hin]; [congruence | split; assumption].
    + injection H as <- <-. split; [intros _ | reflexivity].
      exists ev0. split; [left; reflexivity | exact D].
Qed.

(** [handle_task] fails exactly when one of the platform calls of its file
    or embed arm failed; the other arms always succeed. *)
Lemma send_chunks_stop (ch : Z) (files : list (string * bytes)) (evs : list event) :
  send_chunks deliver ch files = (evs, Err) ->
  exists pre ev post,
    map (fun '(label, chunk) => SendFiles ch label chunk) files = pre ++ ev :: post /\
    evs = pre ++ [ev] /\ Forall (fun e => deliver e = true) pre /\ deliver ev = false.
Proof.
  revert evs. induction files as [|[label chunk] files IH]; intros evs H;
    simpl in H; [discriminate|].
  cbn [map]. destruct (deliver (SendFiles ch label chunk)) eqn:D.
  - destruct (send_chunks deliver ch files) as [evs' r'] eqn:E.
    injection H as <- ->.
    destruct (IH evs' eq_refl) as (pre & ev & post & Hm & -> & F & Hd).
    exists (SendFiles ch label chunk :: pre), ev, post. rewrite Hm.
    split; [reflexivity|]. split; [reflexivity|].
    split; [constructor; assumption | exact Hd].
  - injection H as <-.
    exists [], (SendFiles ch label chunk),
      (map (fun '(label, chunk) => SendFiles ch label chunk) files).
    split; [reflexivity|]. split; [reflexivity|]. split; [constructor | exact D].
Qed.

Lemma send_embeds_stop (ch : Z) (embeds : list EmbedContent) (evs : list event) :
  send_embeds deliver ch embeds = (evs, Err) ->
  exists pre ev post,
    map (fun e' => SendEmbed ch e' (Mentions.extract_mentions (title e') (description e'))
                     (snapshot e')) embeds = pre ++ ev :: post /\
    evs = pre ++ [ev] /\ Forall (fun e => deliver e = true) pre /\ deliver ev = false.
Proof.
  revert evs. induction embeds as [|e embeds IH]; intros evs H;
    simpl in H; [discriminate|].
  cbn [map].
  set (ev0 := SendEmbed ch e (Mentions.extract_mentions (title e) (description e))
                (snapshot e)) in *.
  destruct (deliver ev0) eqn:D.
  - destruct (send_embeds deliver ch embeds) as [evs' r'] eqn:E.
    injection H as <- ->.
    destruct (IH evs' eq_refl) as (pre & ev & post & Hm & -> & F & Hd).
    exists (ev0 :: pre), ev, post. rewrite Hm.
    split; [reflexivity|]. split; [reflexivity|].
    split; [constructor; assumption | exact Hd].
  - injection H as <-.
    exists [], ev0,
      (map (fun e' => SendEmbed ch e' (Mentions.extract_mentions (title e') (description e'))
                        (snapshot e')) embeds).
    split; [reflexivity|]. split; [reflexivity|]. split; [constructor | exact D].
Qed.

Lemma handle_task_result (settings : DiscordSettings) (response : Response) :
  forall s' evs r, handle settings response = (s', evs, r) ->
  match field response with
  | Some (FFile _) | Some (FEmbed _) =>
      (r = Err <-> exists ev, In ev evs /\ deliver ev = false)
  | _ => r = Ok
  end.
Proof.
  intros s' evs r H. unfold handle, handle_task in H.
  destruct (field response) as [[f | e | p | ns]|].
  - destruct (send_chunks _ _ _) as [evs0 r0] eqn:E.
    injection H as _ <- <-. exact (send_chunks_failed _ _ _ _ E).
  - destruct (send_embeds _ _ _) as [evs0 r0] eqn:E.
    injection H as _ <- <-. exact (send_embeds_failed _ _ _ _ E).
  - injection H as _ _ <-. reflexivity.
  - injection H as _ _ <-. reflexivity.
  - injection H as _ _ <-. reflexivity.
Qed.

(** Whatever the payload, the counters are updated as lines 190-191 say,
    and only a [Settings] payload changes the other fields. *)
Lemma handle_task_settings (settings : DiscordSettings) (response : Response) :
  fst (fst (handle settings response))
  = match field response with
    | Some (FSettings ns) =>
        {| channel := channel_id ns; prefix := command_prefix ns;
           cycle_time := new_cycle_time ns; enabled := presence_enabled ns;
           num_messages := wrap64 (num_messages settings + 1);
           total_data := wrap64 (total_data settings + compute_size response) |}
    | _ => counted settings response
    end.
Proof.
  unfold handle, handle_task, counted.
  destruct (field response) as [[f | e | p | ns]|]; simpl; try reflexivity.
  - destruct (send_chunks _ _ _); reflexivity.
  - destruct (send_embeds _ _ _); reflexivity.
Qed.

(** One iteration of [connection_loop] on a frame that parses. *)
Lemma loop_step (fuel : nat) (settings : DiscordSettings) (stream buf rest : bytes)
  (response : Response) :
  read_frame stream = inl (buf, rest) ->
  parse_from_bytes buf = Some response ->
  loop (S fuel) settings stream
  = match handle settings response with
    | (s', evs, Err) => (s', evs, ExitHandle)
    | (s', evs, Ok) =>
        let '(s'', evs', ex) := loop fuel s' rest in (s'', evs ++ evs', ex)
    end.
Proof.
  intros Hr Hp. unfold loop. cbn [connection_loop_fuel].
  rewrite Hr, Hp. reflexivity.
Qed.

Let task := connection_task parse_from_bytes compute_size build_embeds
              split_file deliver cloud.

(** [run] removes the handle of the connection whatever [connection_loop]
    returned: the result of the loop is not looked at. *)
Lemma task_clients (h : nat) (st : ServerState) (t_open t_close : Z) (stream : bytes) :
  forall st' evs ex, task h st t_open t_close stream = Some (st', evs, ex) ->
  clients st' = retain_not_ptr_eq h (insert_front h (clients st)).
Proof.
  intros st' evs ex H. unfold task, connection_task in H.
  destruct (update_presence _ _ _ _) as [[last1 ev1]|]; [|discriminate].
  destruct (connection_loop _ _ _ _ _ _ _ _) as [[s' evs0] ex0].
  destruct (update_presence _ _ _ _) as [[last2 ev2]|]; [|discriminate].
  injection H as <- _ _. reflexivity.
Qed.

Lemma read_frame_consumes (stream buf rest : bytes) :
  read_frame stream = inl (buf, rest) ->
  (List.length rest + 4 <= List.length stream)%nat.
Proof.
  unfold read_frame, read_exact.
  pose proof (length_skipn 4 stream) as L4.
  set (f4 := firstn 4 stream) in *. set (r4 := skipn 4 stream) in *.
  destruct (Nat.leb_spec 4 (List.length stream)) as [H4|]; [|discriminate].
  set (n := Z.to_nat (read_u32 f4)).
  pose proof (length_skipn n r4) as Ln.
  destruct (Nat.leb_spec n (List.length r4)) as [Hn|]; [|discriminate].
  intros E. injection E as _ <-. lia.
Qed.

(** On a finite stream [connection_loop] always stops for one of the
    reasons of the source: a failed read, a failed parse or a failed
    dispatch. *)
Lemma loop_exits (fuel : nat) (settings : DiscordSettings) (stream : bytes) :
  (List.length stream < fuel)%nat -> snd (loop fuel settings stream) <> OutOfFuel.
Proof.
  revert settings stream. induction fuel as [|fuel IH]; intros settings stream Hs;
    [lia|].
  unfold loop. cbn [connection_loop_fuel]. fold loop.
  destruct (read_frame stream) as [[buf rest]|e] eqn:Hr; [|discriminate].
  destruct (parse_from_bytes buf) as [response|]; [|discriminate].
  destruct (handle_task _ _ _ _ _ _ _) as [[s' evs] [|]]; [|discriminate].
  pose proof (read_frame_consumes _ _ _ Hr).
  specialize (IH s' rest ltac:(lia)).
  destruct (loop fuel s' rest) as [[s'' evs'] ex]. exact IH.
Qed.

(** C1 (amended): when a platform call made while dispatching a [File] or
    [Embed] payload fails, [handle_task] stops at that call: the calls made
    for the frame are the payload's calls up to the first failed one, all
    before it having succeeded, and none after it is made; [connection_loop]
    returns at once
    without reading another frame; the task of [run] then removes the
    session from the registry. *)
Theorem delivery_failure_closes_connection :
  (forall (fuel : nat) (settings s' : DiscordSettings) (stream buf rest : bytes)
          (response : Response) (evs : list event) (r : task_result),
     read_frame stream = inl (buf, rest) ->
     parse_from_bytes buf = Some response ->
     match field response with
     | Some (FFile _) | Some (FEmbed _) => True
     | _ => False
     end ->
     handle settings response = (s', evs, r) ->
     (exists ev, In ev evs /\ deliver ev = false) ->
     (exists pre ev post,
        payload_calls settings response = pre ++ ev :: post /\
        evs = pre ++ [ev] /\
        Forall (fun e => deliver e = true) pre /\ deliver ev = false) /\
     loop (S fuel) settings stream = (s', evs, ExitHandle)) /\
  (forall (h : nat) (st st' : ServerState) (t_open t_close : Z) (stream : bytes)
          (evs : list event),
     task h st t_open t_close stream = Some (st', evs, ExitHandle) ->
     ~ In h (clients st')).
Proof.
  split.
  - intros fuel settings s' stream buf rest response evs r Hr Hp Hk Hh Hf.
    pose proof (handle_task_result settings response s' evs r Hh) as Hres.
    assert (r = Err) as ->.
    { destruct (field response) as [[f | e | p | ns]|]; try contradiction;
        apply Hres, Hf. }
    split.
    + unfold handle, handle_task in Hh. unfold payload_calls.
      destruct (field response) as [[f | e | p | ns]|]; try contradiction.
      * destruct (send_chunks deliver _ _) as [evs0 r0] eqn:E.
        injection Hh as _ <- ->. exact (send_chunks_stop _ _ _ E).
      * destruct (send_embeds deliver _ _) as [evs0 r0] eqn:E.
        injection Hh as _ <- ->. exact (send_embeds_stop _ _ _ E).
    + rewrite (loop_step fuel settings stream buf rest response Hr Hp), Hh.
      reflexivity.
  - intros h st st' t_open t_close stream evs H.
    rewrite (task_clients h st t_open t_close stream st' evs ExitHandle H).
    unfold retain_not_ptr_eq. rewrite filter_In, Nat.eqb_refl.
    intros [_ Hf]. discriminate Hf.
Qed.

(** C8 (amended): every frame handled adds one to [num_messages] and its
    encoded size to [total_data], both modulo [2^64] (the [u64] [+=] of a
    release build); the other fields change only for a [Settings] payload.
    So neither counter decreases as long as it stays below [2^64]. *)
Theorem counters_per_frame :
  forall (settings : DiscordSettings) (response : Response),
    let s' := fst (fst (handle settings response)) in
    num_messages s' = wrap64 (num_messages settings + 1) /\
    total_data s' = wrap64 (total_data settings + compute_size response) /\
    (0 <= num_messages settings -> num_messages settings + 1 < 2 ^ 64 ->
     num_messages s' = num_messages settings + 1) /\
    (0 <= total_data settings -> 0 <= compute_size response ->
     total_data settings + compute_size response < 2 ^ 64 ->
     total_data settings <= total_data s') /\
    match field response with
    | Some (FSettings ns) =>
        channel s' = channel_id ns /\ prefix s' = command_prefix ns /\
        cycle_time s' = new_cycle_time ns /\ enabled s' = presence_enabled ns
    | _ =>
        channel s' = channel settings /\ prefix s' = prefix settings /\
        cycle_time s' = cycle_time settings /\ enabled s' = enabled settings
    end.
Proof.
  intros settings response s'.
  assert (Ho : match field response with
               | Some (FSettings ns) =>
                   channel s' = channel_id ns /\ prefix s' = command_prefix ns /\
                   cycle_time s' = new_cycle_time ns /\ enabled s' = presence_enabled ns
               | _ =>
                   channel s' = channel settings /\ prefix s' = prefix settings /\
                   cycle_time s' = cycle_time settings /\ enabled s' = enabled settings
               end).
  { unfold s'. rewrite handle_task_settings. unfold counted.
    destruct (field response) as [[f | e | p | ns]|]; repeat split. }
  assert (Hn : num_messages s' = wrap64 (num_messages settings + 1) /\
               total_data s' = wrap64 (total_data settings + compute_size response)).
  { unfold s'. rewrite handle_task_settings.
    destruct (field response) as [[f | e | p | ns]|]; split; reflexivity. }
  destruct Hn as [Hn Ht].
  split; [exact Hn|]. split; [exact Ht|]. split.
  { intros H0 H1. rewrite Hn. unfold wrap64. apply Z.mod_small. lia. }
  split.
  - intros H0 H1 H2. rewrite Ht. unfold wrap64. rewrite Z.mod_small; lia.
  - exact Ho.
Qed.

(** C10: a [Response] with no payload field is handled without error: the
    two counters are updated, nothing is sent, no other field changes, and
    [connection_loop] goes on with the next frame. *)
Theorem no_field_frame_continues (fuel : nat) (settings : DiscordSettings)
  (stream buf rest : bytes) (response : Response) :
  read_frame stream = inl (buf, rest) ->
  parse_from_bytes buf = Some response ->
  field response = None ->
  handle settings response = (counted settings response, [], Ok) /\
  loop (S fuel) settings stream = loop fuel (counted settings response) rest.
Proof.
  intros Hr Hp Hf.
  assert (Hh : handle settings response = (counted settings response, [], Ok)).
  { unfold handle, handle_task. rewrite Hf. reflexivity. }
  split; [exact Hh|].
  rewrite (loop_step fuel settings stream buf rest response Hr Hp), Hh.
  destruct (loop fuel (counted settings response) rest) as [[a b] c].
  reflexivity.
Qed.

End Dispatch.

(** A device whose every frame parses as a [File] payload. *)
Definition file_payload (b : bytes) : option Response :=
  Some {| field := Some (FFile {| filename := "report.txt"; data := b |}) |}.

Definition empty_server : ServerState :=
  {| clients := []; store := fun _ => new_settings; last_presense_update := 0 |}.

(** C1 as stated fails: with a platform that rejects every call, a device
    sending two [File] frames has only the first one dispatched; the loop
    returns after the failed send and the session is no longer registered. *)
Lemma delivery_failure_counterexample :
  exists st' evs,
    connection_task file_payload (fun _ => 0) (fun e => [e]) (fun n d => [(n, d)])
      (fun _ => false) false 1 empty_server 0 0 (write_frame [1] ++ write_frame [2])
    = Some (st', evs, ExitHandle) /\
    clients st' = [] /\ evs = [SendFiles 0 "report.txt" [1]].
Proof.
  do 2 eexists. split; [reflexivity|]. split; reflexivity.
Qed.

(** C8 as stated fails: a message counter at [2^64 - 1] wraps to 0 on the
    next frame. *)
Lemma counters_wrap_counterexample :
  let s := {| channel := 0; prefix := ""; cycle_time := 0; enabled := false;
              num_messages := 2 ^ 64 - 1; total_data := 0 |} in
  num_messages (fst (fst (handle_task (fun _ => 0) (fun e => [e]) (fun n d => [(n, d)])
                            (fun _ => true) false s {| field := None |})))
  < num_messages s.
Proof. vm_compute. reflexivity. Qed.

Lemma no_field_frame_continues_witness :
  read_frame (write_frame [7]) = inl ([7], []) /\
  handle_task (fun _ => 3) (fun e => [e]) (fun n d => [(n, d)]) (fun _ => true) false
    new_settings {| field := None |}
  = (counted (fun _ => 3) new_settings {| field := None |}, [], Ok).
Proof.
  split; [vm_compute; reflexivity|].
  apply (proj1 (no_field_frame_continues (fun _ => Some {| field := None |})
                  (fun _ => 3) (fun e => [e]) (fun n d => [(n, d)]) (fun _ => true) false
                  0 new_settings (write_frame [7]) [7] [] {| field := None |}
                  ltac:(vm_compute; reflexivity) eq_refl eq_refl)).
Defined.

End DispatchFacts.

(** ** The presence throttle: claims C3 and C9 *)

Module PresenceFacts.

Import Server.

(** Successive calls of [update_presence]: the [Mutex] makes them run one
    after the other.  Each call is a clock reading and a client count. *)
Fixpoint presence_calls (cloud : bool) (last_update : Z) (calls : list (Z * nat))
  : option (Z * list event) :=
  match calls with
  | [] => Some (last_update, [])
  | (now, num_servers) :: calls' =>
      match update_presence cloud last_update now num_servers with
      | None => None
      | Some (last', evs) =>
          match presence_calls cloud last' calls' with
          | None => None
          | Some (last'', evs') => Some (last'', evs ++ evs')
          end
      end
  end.

Definition cooldown : Z := 60000000000.

Definition presence_summary (num_servers : nat) : event :=
  SetActivityStreaming ("to " ++ nat_to_string num_servers ++ " instances")%string.

Lemma as_secs_lt_60 (d : Z) :
  0 <= d -> (d / 1000000000 <? 60) = (d <? cooldown).
Proof.
  intros Hd. unfold cooldown.
  pose proof (Z.div_mod d 1000000000 ltac:(lia)).
  pose proof (Z.mod_pos_bound d 1000000000 ltac:(lia)).
  destruct (Z.ltb_spec (d / 1000000000) 60), (Z.ltb_spec d 60000000000);
    try reflexivity; lia.
Qed.

Lemma update_presence_skip (cloud : bool) (last_update now : Z) (n : nat) :
  last_update <= now < last_update + cooldown ->
  update_presence cloud last_update now n = Some (last_update, []).
Proof.
  intros H. unfold update_presence.
  destruct (Z.ltb_spec now last_update); [lia|].
  rewrite as_secs_lt_60 by lia.
  destruct (Z.ltb_spec (now - last_update) cooldown); [reflexivity | lia].
Qed.

Lemma update_presence_fire (cloud : bool) (last_update now : Z) (n : nat) :
  last_update + cooldown <= now ->
  update_presence cloud last_update now n
  = Some (now, if cloud then [presence_summary n] else []).
Proof.
  intros H. unfold update_presence.
  destruct (Z.ltb_spec now last_update); [unfold cooldown in H; lia|].
  rewrite as_secs_lt_60 by lia.
  destruct (Z.ltb_spec (now - last_update) cooldown); [lia | reflexivity].
Qed.

Lemma presence_calls_no_cloud (last_update : Z) (calls : list (Z * nat))
  (last' : Z) (evs : list event) :
  presence_calls false last_update calls = Some (last', evs) -> evs = [].
Proof.
  revert last_update last' evs.
  induction calls as [|[now n] calls IH]; intros last_update last' evs H.
  - injection H as _ <-. reflexivity.
  - cbn [presence_calls] in H. unfold update_presence in H.
    destruct (now <? last_update); [discriminate|].
    destruct ((now - last_update) / 1000000000 <? 60);
      [destruct (presence_calls false last_update calls) as [[l2 e2]|] eqn:E
      |destruct (presence_calls false now calls) as [[l2 e2]|] eqn:E];
      try discriminate; injection H as _ <-; cbn [app]; exact (IH _ _ _ E).
Qed.

(** C3 as stated fails when [CLOUD_SERVER] is not set: a call after the
    cooldown makes no status update. *)
Lemma presence_throttle_counterexample :
  update_presence false 0 60000000000 1 = Some (60000000000, []).
Proof. vm_compute. reflexivity. Qed.

(** C3 (amended): with [CLOUD_SERVER] set, a call less than 60 s after the
    recorded update does nothing, and a call 60 s or more after it makes one
    status update "to N instances" and records its own time; so of two calls
    less than 60 s apart after the cooldown only the first updates, and a
    third call 60 s or more after the first updates again.  Without
    [CLOUD_SERVER], no run of calls ever makes a status update. *)
Theorem presence_throttle :
  (forall (last_update now : Z) (n : nat),
     last_update <= now < last_update + cooldown ->
     update_presence true last_update now n = Some (last_update, [])) /\
  (forall (last_update now : Z) (n : nat),
     last_update + cooldown <= now ->
     update_presence true last_update now n = Some (now, [presence_summary n])) /\
  (forall (last_update t1 t2 t3 : Z) (n1 n2 n3 : nat),
     last_update + cooldown <= t1 -> t1 <= t2 < t1 + cooldown ->
     t1 + cooldown <= t3 -> t2 <= t3 ->
     presence_calls true last_update [(t1, n1); (t2, n2)]
     = Some (t1, [presence_summary n1]) /\
     presence_calls true last_update [(t1, n1); (t2, n2); (t3, n3)]
     = Some (t3, [presence_summary n1; presence_summary n3])) /\
  (forall (last_update last' : Z) (calls : list (Z * nat)) (evs : list event),
     presence_calls false last_update calls = Some (last', evs) -> evs = []).
Proof.
  split; [|split; [|split]].
  - intros. apply update_presence_skip. exact H.
  - intros. apply update_presence_fire. exact H.
  - intros last_update t1 t2 t3 n1 n2 n3 H1 H2 H3 H4. split.
    + simpl. rewrite update_presence_fire by exact H1.
      rewrite update_presence_skip by lia. reflexivity.
    + simpl. rewrite update_presence_fire by exact H1.
      rewrite update_presence_skip by lia.
      rewrite update_presence_fire by exact H3. reflexivity.
  - intros last_update last' calls evs H. exact (presence_calls_no_cloud _ _ _ _ H).
Qed.

(** C9: without [CLOUD_SERVER], a call after the cooldown sends nothing but
    still records its time, so the 60 s window starts again. *)
Theorem presence_without_cloud_restarts_window (last_update now : Z) (n : nat) :
  last_update + cooldown <= now ->
  update_presence false last_update now n = Some (now, []).
Proof. intros H. apply (update_presence_fire false last_update now n H). Qed.

Lemma presence_without_cloud_restarts_window_witness :
  0 + cooldown <= 70000000000 /\
  update_presence false 0 70000000000 2 = Some (70000000000, []).
Proof.
  split; [unfold cooldown; lia|].
  apply (presence_without_cloud_restarts_window 0 70000000000 2).
  unfold cooldown. lia.
Defined.

End PresenceFacts.

(** ** Routing: claim C2 *)

Module RoutingFacts.

Import Server.

Section Route.

Variable write_all : nat -> bytes -> bool.
Variable ch : Z.
Variables length_buf data : bytes.
Variable store : nat -> DiscordSettings.

Definition matches (client : nat) : bool :=
  negb (ch =? 0) && (ch =? channel (store client)).

Definition reached (client : nat) : bool :=
  matches client && write_all client length_buf && write_all client data.

(** The successful writes on the stream of [client]. *)
Definition writes_of (client : nat) : list (nat * bytes) :=
  if matches client then
    if write_all client length_buf then
      (client, length_buf) :: (if write_all client data then [(client, data)] else [])
    else []
  else [].

Lemma send_clients_eq (cs : list nat) (found : Z) :
  send_clients write_all ch length_buf data store cs found
  = (flat_map writes_of cs, found + Z.of_nat (List.length (filter reached cs))).
Proof.
  revert found. induction cs as [|c cs IH]; intros found; simpl.
  - f_equal. lia.
  - rewrite !IH.
    change (negb (ch =? 0) && (ch =? channel (store c))) with (matches c).
    change (writes_of c) with
      (if matches c then
         if write_all c length_buf then
           (c, length_buf) :: (if write_all c data then [(c, data)] else [])
         else []
       else []).
    change (reached c) with (matches c && write_all c length_buf && write_all c data).
    destruct (matches c), (write_all c length_buf), (write_all c data);
      simpl; f_equal; lia.
Qed.

(** The bytes written on the stream of [h], in order. *)
Definition received (h : nat) (w : list (nat * bytes)) : bytes :=
  List.concat (map snd (filter (fun p => Nat.eqb (fst p) h) w)).

Lemma received_app (h : nat) (w1 w2 : list (nat * bytes)) :
  received h (w1 ++ w2) = received h w1 ++ received h w2.
Proof. unfold received. rewrite filter_app, map_app, concat_app. reflexivity. Qed.

Lemma received_other (h c : nat) : c <> h -> received h (writes_of c) = [].
Proof.
  intros Hc. apply Nat.eqb_neq in Hc. unfold received, writes_of.
  destruct (matches c), (write_all c length_buf), (write_all c data);
    simpl; rewrite ?Hc; reflexivity.
Qed.

Lemma received_self (h : nat) :
  received h (writes_of h)
  = if matches h then
      if write_all h length_buf then
        length_buf ++ (if write_all h data then data else [])
      else []
    else [].
Proof.
  unfold received, writes_of.
  destruct (matches h), (write_all h length_buf), (write_all h data);
    simpl; rewrite ?Nat.eqb_refl; simpl; rewrite ?app_nil_r; reflexivity.
Qed.

Lemma received_notin (h : nat) (cs : list nat) :
  ~ In h cs -> received h (flat_map writes_of cs) = [].
Proof.
  induction cs as [|c cs IH]; intros Hn; [reflexivity|]. simpl.
  rewrite received_app, received_other, IH; [reflexivity| |].
  - intros Hin. apply Hn. right. exact Hin.
  - intros ->. apply Hn. left. reflexivity.
Qed.

Lemma received_in (h : nat) (cs : list nat) :
  NoDup cs -> In h cs ->
  received h (flat_map writes_of cs) = received h (writes_of h).
Proof.
  induction cs as [|c cs IH]; intros Hd Hin; [destruct Hin|].
  inversion Hd as [|? ? Hc Hd']; subst. simpl. rewrite received_app.
  destruct Hin as [-> | Hin].
  - rewrite received_notin by exact Hc. apply app_nil_r.
  - rewrite received_other, IH by (try exact Hd'; try exact Hin; intros ->; contradiction).
    reflexivity.
Qed.

End Route.

(** A registry built from a list of channel ids: handle [i] (from 1) has
    the [i]-th channel. *)
Definition registry_of (chs : list Z) : ServerState :=
  {| clients := seq 1 (List.length chs);
     store := fun h =>
       {| channel := nth (h - 1) chs 0; prefix := ""%string; cycle_time := 0;
          enabled := false; num_messages := 0; total_data := 0 |};
     last_presense_update := 0 |}.

(** C2: [_send_data] writes the frame of [data] (the little-endian length,
    then the bytes) on the stream of exactly the registered sessions whose
    channel is [ch], when [ch] is not 0; what is written on one stream
    depends only on that stream's own writes, so a failure on one does not
    stop the others; [found] counts the sessions both of whose writes
    succeeded.  With channel 0 nothing is written.  With every write
    succeeding, sessions on channels [5; 0; 5] give 2 for channel 5 and 0
    for channel 0. *)
Theorem send_data_routes (write_all : nat -> bytes -> bool) (st : ServerState)
  (ch : Z) (data : bytes) :
  NoDup (clients st) ->
  let length_buf := write_u32 (as_u32 (Z.of_nat (List.length data))) in
  let result := _send_data write_all st ch data in
  (forall h, In h (clients st) ->
     received h (fst result)
     = if negb (ch =? 0) && (ch =? channel (store st h)) then
         if write_all h length_buf then
           length_buf ++ (if write_all h data then data else [])
         else []
       else []) /\
  snd result
  = Z.of_nat (List.length (filter (reached write_all ch length_buf data (store st))
                             (clients st))) /\
  ((forall h b, write_all h b = true) ->
   forall h, In h (clients st) ->
     received h (fst result)
     = if negb (ch =? 0) && (ch =? channel (store st h)) then write_frame data else []) /\
  _send_data write_all st 0 data = ([], 0) /\
  snd (_send_data (fun _ _ => true) (registry_of [5; 0; 5]) 5 data) = 2 /\
  snd (_send_data (fun _ _ => true) (registry_of [5; 0; 5]) 0 data) = 0.
Proof.
  intros Hd length_buf result.
  assert (Hr : result = (flat_map (writes_of write_all ch length_buf data (store st))
                            (clients st),
                         Z.of_nat (List.length (filter (reached write_all ch length_buf
                                                         data (store st)) (clients st))))).
  { unfold result, _send_data. rewrite send_clients_eq. reflexivity. }
  assert (Hrec : forall h, In h (clients st) ->
     received h (fst result)
     = if negb (ch =? 0) && (ch =? channel (store st h)) then
         if write_all h length_buf then
           length_buf ++ (if write_all h data then data else [])
         else []
       else []).
  { intros h Hin. rewrite Hr. simpl. rewrite received_in by assumption.
    apply received_self. }
  split; [exact Hrec|]. split; [rewrite Hr; reflexivity|]. split.
  - intros Hw h Hin. rewrite Hrec by exact Hin. rewrite !Hw. reflexivity.
  - split; [|split].
    + unfold _send_data. rewrite send_clients_eq.
      clear Hd Hr Hrec result.
      induction (clients st) as [|c cs IH]; [reflexivity|].
      cbn [flat_map filter]. cbv [writes_of reached matches Z.eqb negb andb].
      exact IH.
    + vm_compute. reflexivity.
    + vm_compute. reflexivity.
Qed.

Lemma send_data_routes_witness :
  NoDup (clients (registry_of [5; 0; 5])) /\
  snd (_send_data (fun h _ => negb (Nat.eqb h 1)) (registry_of [5; 0; 5]) 5 [9])
  = Z.of_nat (List.length (filter (reached (fun h _ => negb (Nat.eqb h 1)) 5
                                     (write_u32 (as_u32 (Z.of_nat (List.length [9])))) [9]
                                     (store (registry_of [5; 0; 5])))
                             (clients (registry_of [5; 0; 5])))).
Proof.
  assert (Hd : NoDup (clients (registry_of [5; 0; 5]))).
  { simpl. repeat constructor; simpl; intuition discriminate. }
  split; [exact Hd|].
  apply (send_data_routes (fun h _ => negb (Nat.eqb h 1)) (registry_of [5; 0; 5]) 5 [9] Hd).
Defined.

End RoutingFacts.

(** ** The registry: claim C7 *)

Module RegistryFacts.

Import Server.

Lemma retain_In (h x : nat) (cs : list nat) :
  In x (retain_not_ptr_eq h cs) <-> In x cs /\ x <> h.
Proof.
  unfold retain_not_ptr_eq. rewrite filter_In, negb_true_iff, Nat.eqb_neq.
  reflexivity.
Qed.

Lemma retain_idem (h : nat) (cs : list nat) :
  retain_not_ptr_eq h (retain_not_ptr_eq h cs) = retain_not_ptr_eq h cs.
Proof.
  unfold retain_not_ptr_eq.
  induction cs as [|c cs IH]; [reflexivity|]. simpl.
  destruct (Nat.eqb c h) eqn:E; simpl; [exact IH|].
  rewrite E. simpl. rewrite IH. reflexivity.
Qed.

Lemma retain_notin (h : nat) (cs : list nat) :
  ~ In h cs -> retain_not_ptr_eq h cs = cs.
Proof.
  unfold retain_not_ptr_eq.
  induction cs as [|c cs IH]; intros Hn; [reflexivity|]. simpl.
  destruct (Nat.eqb_spec c h) as [-> | Hc]; [exfalso; apply Hn; left; reflexivity|].
  simpl. rewrite IH; [reflexivity|]. intros Hin. apply Hn. right. exact Hin.
Qed.

Lemma retain_once (h : nat) (cs : list nat) :
  NoDup cs -> In h cs ->
  List.length (retain_not_ptr_eq h cs) = (List.length cs - 1)%nat.
Proof.
  induction cs as [|c cs IH]; intros Hd Hin; [destruct Hin|].
  inversion Hd as [|? ? Hc Hd']; subst.
  destruct (Nat.eqb_spec c h) as [-> | Hne].
  - unfold retain_not_ptr_eq. simpl. rewrite Nat.eqb_refl. simpl.
    fold (retain_not_ptr_eq h cs). rewrite retain_notin by exact Hc. lia.
  - destruct Hin as [Heq | Hin]; [contradiction|].
    unfold retain_not_ptr_eq. simpl.
    replace (Nat.eqb c h) with false by (symmetry; apply Nat.eqb_neq; exact Hne).
    simpl. fold (retain_not_ptr_eq h cs). rewrite IH by assumption.
    destruct cs; [destruct Hin | simpl; lia].
Qed.

(** C7: the removal at the end of the task of [run] keeps exactly the
    handles other than the session's own ([Arc::ptr_eq]), so another session
    on the same channel stays; it is idempotent; on a registry holding the
    handle once it removes that one entry; it happens whatever way
    [connection_loop] returned, and on a finite stream the loop always
    returns for one of the source's reasons (read, parse or dispatch
    failure). *)
Theorem session_removed_by_identity :
  (forall (h x : nat) (cs : list nat),
     In x (retain_not_ptr_eq h cs) <-> In x cs /\ x <> h) /\
  (forall (st : ServerState) (h h' : nat),
     h' <> h -> channel (store st h') = channel (store st h) ->
     In h' (clients st) -> In h' (retain_not_ptr_eq h (clients st))) /\
  (forall (h : nat) (cs : list nat),
     retain_not_ptr_eq h (retain_not_ptr_eq h cs) = retain_not_ptr_eq h cs) /\
  (forall (h : nat) (cs : list nat),
     NoDup cs -> In h cs ->
     List.length (retain_not_ptr_eq h cs) = (List.length cs - 1)%nat /\
     ~ In h (retain_not_ptr_eq h cs)) /\
  (forall parse_from_bytes compute_size build_embeds split_file deliver cloud
          (h : nat) (st st' : ServerState) (t_open t_close : Z) (stream : bytes)
          (evs : list event) (ex : exit_reason),
     connection_task parse_from_bytes compute_size build_embeds split_file deliver
       cloud h st t_open t_close stream = Some (st', evs, ex) ->
     clients st' = retain_not_ptr_eq h (insert_front h (clients st)) /\
     (~ In h (clients st) -> clients st' = clients st)) /\
  (forall parse_from_bytes compute_size build_embeds split_file deliver cloud
          (settings : DiscordSettings) (stream : bytes),
     snd (connection_loop parse_from_bytes compute_size build_embeds split_file
            deliver cloud settings stream) <> OutOfFuel).
Proof.
  split; [exact retain_In|]. split.
  { intros st h h' Hne _ Hin. apply retain_In. split; assumption. }
  split; [exact retain_idem|]. split.
  { intros h cs Hd Hin. split; [exact (retain_once h cs Hd Hin)|].
    rewrite retain_In. intros [_ Hh]. apply Hh. reflexivity. }
  split.
  - intros parse_from_bytes compute_size build_embeds split_file deliver cloud
      h st st' t_open t_close stream evs ex H.
    pose proof (DispatchFacts.task_clients parse_from_bytes compute_size build_embeds
                  split_file deliver cloud h st t_open t_close stream st' evs ex H) as E.
    split; [exact E|]. intros Hn. rewrite E. unfold insert_front, retain_not_ptr_eq.
    simpl. rewrite Nat.eqb_refl. simpl. fold (retain_not_ptr_eq h (clients st)).
    apply retain_notin, Hn.
  - intros parse_from_bytes compute_size build_embeds split_file deliver cloud
      settings stream.
    apply (DispatchFacts.loop_exits parse_from_bytes compute_size build_embeds
             split_file deliver cloud). lia.
Qed.

End RegistryFacts.

(** * Further properties of the code *)

(** ** [connection_loop] over a stream of frames *)

Module LoopFacts.

Import Server FrameFacts.

Lemma read_frame_app (d rest : bytes) :
  Z.of_nat (List.length d) < 2 ^ 32 -> read_frame (write_frame d ++ rest) = inl (d, rest).
Proof.
  intros H. rewrite read_write_frame. cbv zeta.
  rewrite frame_length_in_range by exact H.
  rewrite read_exact_app by reflexivity. reflexivity.
Qed.

(** A stream cut inside a frame (or before it) cannot be read as a frame. *)
Lemma read_frame_cut (d : bytes) (k : nat) :
  Z.of_nat (List.length d) < 2 ^ 32 ->
  (1 <= k <= List.length (write_frame d))%nat ->
  exists e, read_frame (firstn (List.length (write_frame d) - k) (write_frame d)) = inr e.
Proof.
  intros Hlen Hk. rewrite write_frame_length in *.
  destruct (Nat.lt_ge_cases (4 + List.length d - k) 4) as [Hs | Hl].
  - exists ReadLengthFailed. unfold read_frame.
    rewrite read_exact_short; [reflexivity|].
    rewrite length_firstn, write_frame_length. lia.
  - exists ReadDataFailed. unfold write_frame.
    rewrite firstn_app, write_u32_length.
    rewrite firstn_all2 by (rewrite write_u32_length; lia).
    unfold read_frame. rewrite read_exact_app by reflexivity.
    rewrite read_u32_write_u32 by (unfold as_u32; apply Z.mod_pos_bound; lia).
    rewrite frame_length_in_range by exact Hlen.
    rewrite read_exact_short; [reflexivity|].
    rewrite length_firstn. lia.
Qed.

Lemma frames_length (ps : list bytes) :
  (List.length ps <= List.length (List.concat (map write_frame ps)))%nat.
Proof.
  induction ps as [|p ps IH]; cbn [map List.concat List.length]; [lia|].
  rewrite length_app, write_frame_length. lia.
Qed.

Section Frames.

Variable parse_from_bytes : bytes -> option Response.
Variable compute_size : Response -> Z.
Variable build_embeds : EmbedContent -> list EmbedContent.
Variable split_file : string -> bytes -> list (string * bytes).
Variable deliver : event -> bool.
Variable cloud : bool.

Let handle := handle_task compute_size build_embeds split_file deliver cloud.
Let loop := connection_loop_fuel parse_from_bytes compute_size build_embeds
              split_file deliver cloud.

(** The frames of a connection handled one after the other, [eof] being
    how the loop stops once they are all handled. *)
Fixpoint run_frames (settings : DiscordSettings) (ps : list bytes) (eof : exit_reason)
  : DiscordSettings * list event * exit_reason :=
  match ps with
  | [] => (settings, [], eof)
  | p :: ps' =>
      match parse_from_bytes p with
      | None => (settings, [], ExitParse)
      | Some response =>
          match handle settings response with
          | (s', evs, Err) => (s', evs, ExitHandle)
          | (s', evs, Ok) =>
              let '(s'', evs', ex) := run_frames s' ps' eof in (s'', evs ++ evs', ex)
          end
      end
  end.

Lemma loop_frames (fuel : nat) (settings : DiscordSettings) (ps : list bytes)
  (tail : bytes) (e : read_error) :
  Forall (fun p => Z.of_nat (List.length p) < 2 ^ 32) ps ->
  read_frame tail = inr e ->
  (List.length ps < fuel)%nat ->
  loop fuel settings (List.concat (map write_frame ps) ++ tail)
  = run_frames settings ps (ExitRead e).
Proof.
  revert settings fuel. induction ps as [|p ps IH]; intros settings fuel Hps Ht Hf.
  - destruct fuel as [|fuel]; [lia|]. simpl. unfold loop. cbn [connection_loop_fuel].
    rewrite Ht. reflexivity.
  - inversion Hps as [|? ? Hp Hps']; subst.
    destruct fuel as [|fuel]; [lia|].
    cbn [map List.concat]. rewrite <- app_assoc.
    unfold loop. cbn [connection_loop_fuel]. rewrite read_frame_app by exact Hp.
    cbn [run_frames]. destruct (parse_from_bytes p) as [response|]; [|reflexivity].
    fold handle. destruct (handle settings response) as [[s' evs] [|]]; [|reflexivity].
    fold loop. rewrite IH by (simpl in Hf; auto with arith || lia). reflexivity.
Qed.

Lemma handle_ok_when_delivered (settings : DiscordSettings) (response : Response) :
  (forall ev, deliver ev = true) ->
  snd (handle settings response) = Ok.
Proof.
  intros Hd. destruct (handle settings response) as [[s' evs] r] eqn:E. simpl.
  pose proof (DispatchFacts.handle_task_result compute_size build_embeds split_file
                deliver cloud settings response s' evs r E) as H.
  destruct (field response) as [[f | e | p | ns]|]; try exact H;
    destruct r; try reflexivity;
    destruct (proj1 H eq_refl) as (ev & _ & Hf); rewrite Hd in Hf; discriminate.
Qed.

Lemma handle_fields (settings : DiscordSettings) (response : Response) :
  let s' := fst (fst (handle settings response)) in
  num_messages s' = wrap64 (num_messages settings + 1) /\
  total_data s' = wrap64 (total_data settings + compute_size response) /\
  channel s' = match field response with
               | Some (FSettings ns) => channel_id ns
               | _ => channel settings
               end.
Proof.
  intros s'. unfold s', handle. rewrite DispatchFacts.handle_task_settings.
  destruct (field response) as [[f | e | p | ns]|]; repeat split; reflexivity.
Qed.

Lemma loop_whole_frames (settings : DiscordSettings) (ps : list bytes) :
  Forall (fun p => Z.of_nat (List.length p) < 2 ^ 32) ps ->
  connection_loop parse_from_bytes compute_size build_embeds split_file deliver cloud
    settings (List.concat (map write_frame ps))
  = run_frames settings ps (ExitRead ReadLengthFailed).
Proof.
  intros Hps. unfold connection_loop.
  rewrite <- (app_nil_r (List.concat (map write_frame ps))) at 2.
  apply (loop_frames _ settings ps [] ReadLengthFailed Hps eq_refl).
  pose proof (frames_length ps). lia.
Qed.

(** Frames are handled strictly in the order they arrive, and a stream that
    ends cleanly after whole frames makes the loop stop on the failed read
    of the next length, after every frame was handled. *)
Theorem loop_handles_frames_in_order (settings : DiscordSettings) (ps : list bytes) :
  Forall (fun p => Z.of_nat (List.length p) < 2 ^ 32) ps ->
  connection_loop parse_from_bytes compute_size build_embeds split_file deliver cloud
    settings (List.concat (map write_frame ps))
  = run_frames settings ps (ExitRead ReadLengthFailed).
Proof. apply loop_whole_frames. Qed.

(** A connection that drops inside a frame: the whole frames before it are
    handled as usual and the incomplete one is never parsed nor
    dispatched; the loop stops on a read error. *)
Theorem loop_stops_on_cut_frame (settings : DiscordSettings) (ps : list bytes)
  (q : bytes) (k : nat) :
  Forall (fun p => Z.of_nat (List.length p) < 2 ^ 32) ps ->
  Z.of_nat (List.length q) < 2 ^ 32 ->
  (1 <= k <= List.length (write_frame q))%nat ->
  exists e,
    connection_loop parse_from_bytes compute_size build_embeds split_file deliver cloud
      settings (List.concat (map write_frame ps)
                ++ firstn (List.length (write_frame q) - k) (write_frame q))
    = run_frames settings ps (ExitRead e).
Proof.
  intros Hps Hq Hk. destruct (read_frame_cut q k Hq Hk) as [e He].
  exists e. unfold connection_loop.
  apply (loop_frames _ settings ps _ e Hps He).
  rewrite length_app. pose proof (frames_length ps). lia.
Qed.

(** When every frame parses and every platform call succeeds, the loop
    handles all frames and stops at the end of the stream; the message
    counter has grown by the number of frames and the byte counter by
    their encoded sizes (both modulo [2^64]). *)
Theorem loop_counts_frames (settings : DiscordSettings) (ps : list bytes)
  (rs : list Response) :
  0 <= num_messages settings < 2 ^ 64 ->
  0 <= total_data settings < 2 ^ 64 ->
  Forall (fun p => Z.of_nat (List.length p) < 2 ^ 32) ps ->
  Forall2 (fun p r => parse_from_bytes p = Some r) ps rs ->
  (forall ev, deliver ev = true) ->
  let result := connection_loop parse_from_bytes compute_size build_embeds split_file
                  deliver cloud settings (List.concat (map write_frame ps)) in
  snd result = ExitRead ReadLengthFailed /\
  num_messages (fst (fst result))
  = wrap64 (num_messages settings + Z.of_nat (List.length ps)) /\
  total_data (fst (fst result))
  = wrap64 (total_data settings + fold_right (fun r acc => compute_size r + acc) 0 rs).
Proof.
  intros Hn Ht Hps Hrs Hd result. unfold result. rewrite loop_whole_frames by exact Hps.
  clear result Hps. revert settings Hn Ht.
  induction Hrs as [|p r ps rs Hp Hrs IH]; intros settings Hn Ht.
  - cbn [run_frames fst snd List.length fold_right]. unfold wrap64.
    rewrite !Z.add_0_r, !Z.mod_small by lia. repeat split.
  - cbn [run_frames]. rewrite Hp.
    pose proof (handle_ok_when_delivered settings r Hd) as Hok.
    destruct (handle_fields settings r) as (Hn1 & Ht1 & _).
    destruct (handle settings r) as [[s1 evs] t] eqn:E.
    cbn [fst snd] in Hok, Hn1, Ht1. subst t.
    assert (R1 : 0 <= num_messages s1 < 2 ^ 64)
      by (rewrite Hn1; unfold wrap64; apply Z.mod_pos_bound; lia).
    assert (R2 : 0 <= total_data s1 < 2 ^ 64)
      by (rewrite Ht1; unfold wrap64; apply Z.mod_pos_bound; lia).
    destruct (IH s1 R1 R2) as (Hx & Hn2 & Ht2).
    destruct (run_frames s1 ps (ExitRead ReadLengthFailed)) as [[s2 evs2] ex].
    cbn [fst snd] in Hx, Hn2, Ht2 |- *. rewrite Hn1 in Hn2. rewrite Ht1 in Ht2.
    unfold wrap64 in Hn2, Ht2 |- *. rewrite Z.add_mod_idemp_l in Hn2, Ht2 by lia.
    cbn [List.length fold_right]. repeat split.
    + exact Hx.
    + rewrite Hn2. f_equal. lia.
    + rewrite Ht2. f_equal. lia.
Qed.

(** The channel a session posts to after the loop is the one of the last
    [Settings] frame it handled, or the one it had before if none came. *)
Theorem loop_channel_from_last_settings (settings : DiscordSettings) (ps : list bytes)
  (rs : list Response) :
  Forall (fun p => Z.of_nat (List.length p) < 2 ^ 32) ps ->
  Forall2 (fun p r => parse_from_bytes p = Some r) ps rs ->
  (forall ev, deliver ev = true) ->
  channel (fst (fst (connection_loop parse_from_bytes compute_size build_embeds
                       split_file deliver cloud settings
                       (List.concat (map write_frame ps)))))
  = fold_left (fun c r => match field r with
                          | Some (FSettings ns) => channel_id ns
                          | _ => c
                          end) rs (channel settings).
Proof.
  intros Hps Hrs Hd. rewrite loop_whole_frames by exact Hps.
  clear Hps. revert settings.
  induction Hrs as [|p r ps rs Hp Hrs IH]; intros settings.
  - reflexivity.
  - cbn [run_frames fold_left]. rewrite Hp.
    pose proof (handle_ok_when_delivered settings r Hd) as Hok.
    destruct (handle_fields settings r) as (_ & _ & Hc).
    destruct (handle settings r) as [[s1 evs] t] eqn:E.
    cbn [fst snd] in Hok, Hc. subst t.
    specialize (IH s1).
    destruct (run_frames s1 ps (ExitRead ReadLengthFailed)) as [[s2 evs2] ex].
    cbn [fst] in IH |- *. rewrite IH, Hc. reflexivity.
Qed.

End Frames.

(** A peer whose frames all parse: a one-byte frame [[c]] sets the channel
    to [c], any other frame carries no payload. *)
Definition sample_settings_msg (c : Z) : SettingsMsg :=
  {| channel_id := c; command_prefix := "!"%string; new_cycle_time := 30;
     presence_enabled := true |}.

Definition sample_parse (p : bytes) : option Response :=
  match p with
  | [c] => Some {| field := Some (FSettings (sample_settings_msg c)) |}
  | _ => Some {| field := None |}
  end.

Definition sample_frames : list bytes := [[5]; [1; 2]; [9]; [3; 4; 6]].

Definition sample_responses : list Response :=
  [{| field := Some (FSettings (sample_settings_msg 5)) |}; {| field := None |};
   {| field := Some (FSettings (sample_settings_msg 9)) |}; {| field := None |}].

Lemma sample_frames_small :
  Forall (fun p => Z.of_nat (List.length p) < 2 ^ 32) sample_frames.
Proof. repeat (apply Forall_cons; [cbn; lia|]). apply Forall_nil. Qed.

Lemma sample_frames_parse :
  Forall2 (fun p r => sample_parse p = Some r) sample_frames sample_responses.
Proof. repeat (apply Forall2_cons; [reflexivity|]). apply Forall2_nil. Qed.

Lemma loop_handles_frames_in_order_witness :
  Forall (fun p => Z.of_nat (List.length p) < 2 ^ 32) sample_frames /\
  connection_loop sample_parse (fun _ => 1) (fun e => [e]) (fun n d => [(n, d)])
    (fun _ => true) false new_settings (List.concat (map write_frame sample_frames))
  = run_frames sample_parse (fun _ => 1) (fun e => [e]) (fun n d => [(n, d)])
      (fun _ => true) false new_settings sample_frames (ExitRead ReadLengthFailed).
Proof.
  split; [exact sample_frames_small|].
  apply (loop_handles_frames_in_order sample_parse (fun _ => 1) (fun e => [e])
           (fun n d => [(n, d)]) (fun _ => true) false new_settings sample_frames
           sample_frames_small).
Defined.

Lemma loop_stops_on_cut_frame_witness :
  exists e,
    connection_loop sample_parse (fun _ => 1) (fun e => [e]) (fun n d => [(n, d)])
      (fun _ => true) false new_settings
      (List.concat (map write_frame sample_frames)
       ++ firstn (List.length (write_frame [7; 7]) - 3) (write_frame [7; 7]))
    = run_frames sample_parse (fun _ => 1) (fun e => [e]) (fun n d => [(n, d)])
        (fun _ => true) false new_settings sample_frames (ExitRead e).
Proof.
  apply (loop_stops_on_cut_frame sample_parse (fun _ => 1) (fun e => [e])
           (fun n d => [(n, d)]) (fun _ => true) false new_settings sample_frames
           [7; 7] 3 sample_frames_small).
  - cbn. lia.
  - cbn. lia.
Defined.

Lemma loop_counts_frames_witness :
  let result := connection_loop sample_parse (fun _ => 1) (fun e => [e])
                  (fun n d => [(n, d)]) (fun _ => true) false new_settings
                  (List.concat (map write_frame sample_frames)) in
  snd result = ExitRead ReadLengthFailed /\
  num_messages (fst (fst result))
  = wrap64 (num_messages new_settings + Z.of_nat (List.length sample_frames)) /\
  total_data (fst (fst result))
  = wrap64 (total_data new_settings
            + fold_right (fun r acc => (fun _ => 1) r + acc) 0 sample_responses).
Proof.
  apply (loop_counts_frames sample_parse (fun _ => 1) (fun e => [e])
           (fun n d => [(n, d)]) (fun _ => true) false new_settings sample_frames
           sample_responses).
  - cbn. lia.
  - cbn. lia.
  - exact sample_frames_small.
  - exact sample_frames_parse.
  - reflexivity.
Defined.

Lemma loop_channel_from_last_settings_witness :
  channel (fst (fst (connection_loop sample_parse (fun _ => 1) (fun e => [e])
                       (fun n d => [(n, d)]) (fun _ => true) false new_settings
                       (List.concat (map write_frame sample_frames)))))
  = fold_left (fun c r => match field r with
                          | Some (FSettings ns) => channel_id ns
                          | _ => c
                          end) sample_responses (channel new_settings).
Proof.
  apply (loop_channel_from_last_settings sample_parse (fun _ => 1) (fun e => [e])
           (fun n d => [(n, d)]) (fun _ => true) false new_settings sample_frames
           sample_responses sample_frames_small sample_frames_parse).
  reflexivity.
Defined.

End LoopFacts.

(** ** The task of one connection, the presence throttle over many calls,
       and what [_send_data] never reaches *)

Module TaskFacts.

Import Server RoutingFacts.

Lemma update_presence_result (cloud : bool) (last_update now : Z) (n : nat)
  (last' : Z) (evs : list event) :
  update_presence cloud last_update now n = Some (last', evs) ->
  last_update <= last' <= now /\
  (List.length evs <= 1)%nat /\
  Z.of_nat (List.length evs) * PresenceFacts.cooldown <= last' - last_update /\
  (cloud = false -> evs = []).
Proof.
  unfold update_presence.
  destruct (Z.ltb_spec now last_update) as [|Hle]; [discriminate|].
  rewrite PresenceFacts.as_secs_lt_60 by lia.
  destruct (Z.ltb_spec (now - last_update) PresenceFacts.cooldown) as [Hlt|Hge];
    intros H; injection H as <- <-.
  - cbn [List.length]. repeat split; lia.
  - destruct cloud; cbn [List.length]; repeat split; try lia; discriminate.
Qed.


(** Any run of [update_presence] calls, the [Mutex] ordering them, makes
    at most one status update per 60 s: the recorded time has advanced by
    at least 60 s per update made, and without [CLOUD_SERVER] no update is
    ever made. *)
Theorem presence_calls_rate (cloud : bool) (last_update : Z) (calls : list (Z * nat))
  (last' : Z) (evs : list event) :
  PresenceFacts.presence_calls cloud last_update calls = Some (last', evs) ->
  last_update <= last' /\
  Z.of_nat (List.length evs) * PresenceFacts.cooldown <= last' - last_update /\
  (cloud = false -> evs = []).
Proof.
  revert last_update last' evs.
  induction calls as [|[now n] calls IH]; intros last_update last' evs H.
  - injection H as <- <-. cbn [List.length]. repeat split; lia.
  - cbn [PresenceFacts.presence_calls] in H.
    destruct (update_presence cloud last_update now n) as [[l1 e1]|] eqn:E1;
      [|discriminate].
    destruct (PresenceFacts.presence_calls cloud l1 calls) as [[l2 e2]|] eqn:E2;
      [|discriminate].
    injection H as <- <-.
    destruct (update_presence_result _ _ _ _ _ _ E1) as (R1 & _ & C1 & N1).
    destruct (IH l1 l2 e2 E2) as (R2 & C2 & N2).
    rewrite length_app, Nat2Z.inj_add. repeat split; try lia.
    intros Hc. rewrite (N1 Hc), (N2 Hc). reflexivity.
Qed.

Lemma presence_calls_rate_witness :
  PresenceFacts.presence_calls true 0
    [(70000000000, 1%nat); (90000000000, 2%nat); (140000000000, 1%nat)]
  = Some (140000000000, [PresenceFacts.presence_summary 1;
                         PresenceFacts.presence_summary 1]) /\
  0 <= 140000000000 /\
  Z.of_nat (List.length [PresenceFacts.presence_summary 1;
                         PresenceFacts.presence_summary 1]) * PresenceFacts.cooldown
  <= 140000000000 - 0 /\
  (true = false -> [PresenceFacts.presence_summary 1;
                    PresenceFacts.presence_summary 1] = []).
Proof.
  assert (E : PresenceFacts.presence_calls true 0
                [(70000000000, 1%nat); (90000000000, 2%nat); (140000000000, 1%nat)]
              = Some (140000000000, [PresenceFacts.presence_summary 1;
                                     PresenceFacts.presence_summary 1]))
    by (vm_compute; reflexivity).
  split; [exact E|].
  exact (presence_calls_rate true 0 _ _ _ E).
Defined.

Section Task.

Variable parse_from_bytes : bytes -> option Response.
Variable compute_size : Response -> Z.
Variable build_embeds : EmbedContent -> list EmbedContent.
Variable split_file : string -> bytes -> list (string * bytes).
Variable deliver : event -> bool.
Variable cloud : bool.

Let task := connection_task parse_from_bytes compute_size build_embeds split_file
              deliver cloud.
Let loop := connection_loop parse_from_bytes compute_size build_embeds split_file
              deliver cloud.

Lemma task_steps (h : nat) (st st' : ServerState) (t_open t_close : Z)
  (stream : bytes) (evs : list event) (ex : exit_reason) :
  task h st t_open t_close stream = Some (st', evs, ex) ->
  exists last1 ev1 ev2,
    update_presence cloud (last_presense_update st) t_open
      (S (List.length (clients st))) = Some (last1, ev1) /\
    update_presence cloud last1 t_close
      (List.length (retain_not_ptr_eq h (insert_front h (clients st))))
    = Some (last_presense_update st', ev2) /\
    clients st' = retain_not_ptr_eq h (insert_front h (clients st)) /\
    store st' = set_store (set_store (store st) h new_settings) h
                  (fst (fst (loop new_settings stream))) /\
    evs = ev1 ++ snd (fst (loop new_settings stream)) ++ ev2 /\
    ex = snd (loop new_settings stream).
Proof.
  intros H.
  assert (Es : set_store (store st) h new_settings h = new_settings)
    by (unfold set_store; rewrite Nat.eqb_refl; reflexivity).
  unfold task, connection_task in H. cbv zeta in H. rewrite Es in H.
  destruct (update_presence _ _ _ _) as [[last1 ev1]|] eqn:E1; [|discriminate].
  fold loop in H.
  destruct (loop new_settings stream) as [[s' evs0] ex0] eqn:EL.
  destruct (update_presence cloud last1 t_close _) as [[last2 ev2]|] eqn:E2;
    [|discriminate].
  injection H as <- <- <-.
  exists last1, ev1, ev2. cbn [fst snd store clients last_presense_update].
  repeat split; assumption.
Qed.

(** Every connection starts from fresh settings whatever its handle held
    before: when the task ends, the session's settings are those its loop
    reached from [new_settings], no other session's settings changed, and
    the platform calls are the loop's, between at most one status update
    when the connection opens and one when it closes (none without
    [CLOUD_SERVER]). *)
Theorem connection_task_effects (h : nat) (st st' : ServerState) (t_open t_close : Z)
  (stream : bytes) (evs : list event) (ex : exit_reason) :
  connection_task parse_from_bytes compute_size build_embeds split_file deliver cloud
    h st t_open t_close stream = Some (st', evs, ex) ->
  store st' h = fst (fst (loop new_settings stream)) /\
  (forall x, x <> h -> store st' x = store st x) /\
  ex = snd (loop new_settings stream) /\
  exists ev1 ev2,
    evs = ev1 ++ snd (fst (loop new_settings stream)) ++ ev2 /\
    (List.length ev1 <= 1)%nat /\ (List.length ev2 <= 1)%nat /\
    (cloud = false -> ev1 = [] /\ ev2 = []).
Proof.
  intros H.
  destruct (task_steps h st st' t_open t_close stream evs ex H)
    as (last1 & ev1 & ev2 & E1 & E2 & _ & Hs & He & Hx).
  destruct (update_presence_result _ _ _ _ _ _ E1) as (_ & L1 & _ & N1).
  destruct (update_presence_result _ _ _ _ _ _ E2) as (_ & L2 & _ & N2).
  rewrite Hs. unfold set_store. rewrite Nat.eqb_refl.
  split; [reflexivity|]. split.
  { intros x Hx'. apply Nat.eqb_neq in Hx'. rewrite Hx'. reflexivity. }
  split; [exact Hx|].
  exists ev1, ev2. repeat split; try assumption.
  - apply N1. assumption.
  - apply N2. assumption.
Qed.


(** Once its task has ended, a connection is never written to again:
    [_send_data] on the resulting state writes nothing to its handle,
    whatever the channel and the data. *)
Theorem closed_session_unreachable (h : nat) (st st' : ServerState)
  (t_open t_close : Z) (stream : bytes) (evs : list event) (ex : exit_reason) :
  task h st t_open t_close stream = Some (st', evs, ex) ->
  forall write_all ch data,
    received h (fst (_send_data write_all st' ch data)) = [].
Proof.
  intros H write_all ch data.
  pose proof (DispatchFacts.task_clients parse_from_bytes compute_size build_embeds
                split_file deliver cloud h st t_open t_close stream st' evs ex H) as Ec.
  unfold _send_data. rewrite send_clients_eq. cbn [fst].
  apply received_notin. rewrite Ec, RegistryFacts.retain_In.
  intros [_ Hh]. apply Hh. reflexivity.
Qed.

End Task.

(** A session whose channel is still 0, as every session is until its
    peer sends a [Settings] frame, receives nothing from [_send_data],
    whatever the target channel; this holds even if its handle were listed
    more than once. *)
Theorem channel_zero_session_unreachable (write_all : nat -> bytes -> bool)
  (st : ServerState) (h : nat) (ch : Z) (data : bytes) :
  channel (store st h) = 0 ->
  received h (fst (_send_data write_all st ch data)) = [].
Proof.
  intros H0. unfold _send_data. rewrite send_clients_eq. cbn [fst].
  induction (clients st) as [|c cs IH]; [reflexivity|].
  cbn [flat_map]. rewrite received_app, IH, app_nil_r.
  destruct (Nat.eq_dec c h) as [-> | Hne].
  - unfold writes_of, matches. rewrite H0.
    destruct (ch =? 0); reflexivity.
  - apply received_other. exact Hne.
Qed.

Lemma channel_zero_session_unreachable_witness :
  channel (store (registry_of [0; 5]) 1) = 0 /\
  received 1 (fst (_send_data (fun _ _ => true) (registry_of [0; 5]) 5 [1; 2])) = [].
Proof.
  split; [reflexivity|].
  apply (channel_zero_session_unreachable (fun _ _ => true) (registry_of [0; 5]) 1 5
           [1; 2]).
  reflexivity.
Defined.

Definition sample_task_state : ServerState :=
  {| clients := [2%nat]; store := fun _ => new_settings; last_presense_update := 0 |}.

Lemma closed_session_unreachable_witness :
  exists st' evs ex,
    connection_task (fun _ => Some {| field := None |}) (fun _ => 1) (fun e => [e])
      (fun n d => [(n, d)]) (fun _ => true) true 1 sample_task_state
      70000000000 80000000000 (write_frame [3])
    = Some (st', evs, ex) /\
    received 1 (fst (_send_data (fun _ _ => true) st' 0 [4])) = [].
Proof.
  destruct (connection_task (fun _ => Some {| field := None |}) (fun _ => 1)
              (fun e => [e]) (fun n d => [(n, d)]) (fun _ => true) true 1
              sample_task_state 70000000000 80000000000 (write_frame [3]))
    as [[[st' evs] ex]|] eqn:E.
  - exists st', evs, ex. split; [reflexivity|].
    apply (closed_session_unreachable (fun _ => Some {| field := None |}) (fun _ => 1)
             (fun e => [e]) (fun n d => [(n, d)]) (fun _ => true) true 1
             sample_task_state st' 70000000000 80000000000 (write_frame [3]) evs ex E).
  - vm_compute in E. discriminate.
Defined.

Lemma connection_task_effects_witness :
  exists st' evs ex,
    connection_task (fun _ => Some {| field := None |}) (fun _ => 1) (fun e => [e])
      (fun n d => [(n, d)]) (fun _ => true) true 1 sample_task_state
      70000000000 80000000000 (write_frame [3])
    = Some (st', evs, ex) /\
    store st' 1
    = fst (fst (connection_loop (fun _ => Some {| field := None |}) (fun _ => 1)
                  (fun e => [e]) (fun n d => [(n, d)]) (fun _ => true) true
                  new_settings (write_frame [3]))).
Proof.
  destruct (connection_task (fun _ => Some {| field := None |}) (fun _ => 1)
              (fun e => [e]) (fun n d => [(n, d)]) (fun _ => true) true 1
              sample_task_state 70000000000 80000000000 (write_frame [3]))
    as [[[st' evs] ex]|] eqn:E.
  - exists st', evs, ex. split; [reflexivity|].
    apply (connection_task_effects (fun _ => Some {| field := None |}) (fun _ => 1)
             (fun e => [e]) (fun n d => [(n, d)]) (fun _ => true) true 1
             sample_task_state st' 70000000000 80000000000 (write_frame [3]) evs ex E).
  - vm_compute in E. discriminate.
Defined.


End TaskFacts.

(** ** The file and embed arms of [handle_task] *)

Module ArmFacts.

Import Server.

(** The platform calls of a list of sends made one after the other, the
    first failure ending the list. *)
Definition stops_at_first_failure (deliver : event -> bool)
  (all sent : list event) (r : task_result) : Prop :=
  (r = Ok /\ sent = all /\ Forall (fun ev => deliver ev = true) all) \/
  (r = Err /\ exists pre ev post,
     all = pre ++ ev :: post /\ sent = pre ++ [ev] /\
     Forall (fun ev => deliver ev = true) pre /\ deliver ev = false).

Section Arms.

Variable deliver : event -> bool.

Fixpoint send_seq (evs : list event) : list event * task_result :=
  match evs with
  | [] => ([], Ok)
  | ev :: rest =>
      if deliver ev then let (sent, r) := send_seq rest in (ev :: sent, r)
      else ([ev], Err)
  end.

Lemma send_chunks_seq (ch : Z) (files : list (string * bytes)) :
  send_chunks deliver ch files
  = send_seq (map (fun '(label, chunk) => SendFiles ch label chunk) files).
Proof.
  induction files as [|[label chunk] files IH]; [reflexivity|].
  cbn [send_chunks map send_seq]. rewrite IH. reflexivity.
Qed.

Lemma send_embeds_seq (ch : Z) (embeds : list EmbedContent) :
  send_embeds deliver ch embeds
  = send_seq (map (fun e => SendEmbed ch e
                              (Mentions.extract_mentions (title e) (description e))
                              (snapshot e)) embeds).
Proof.
  induction embeds as [|e embeds IH]; [reflexivity|].
  cbn [send_embeds map send_seq]. rewrite IH. reflexivity.
Qed.

Lemma send_seq_spec (evs : list event) :
  stops_at_first_failure deliver evs (fst (send_seq evs)) (snd (send_seq evs)).
Proof.
  unfold stops_at_first_failure.
  induction evs as [|ev evs IH].
  - left. repeat split. constructor.
  - cbn [send_seq]. destruct (deliver ev) eqn:D.
    + destruct (send_seq evs) as [sent r]. cbn [fst snd] in IH |- *.
      destruct IH as [(-> & -> & F) | (-> & pre & ev' & post & -> & -> & F & D')].
      * left. repeat split. constructor; assumption.
      * right. split; [reflexivity|]. exists (ev :: pre), ev', post.
        repeat split; try assumption. constructor; assumption.
    + right. split; [reflexivity|]. exists [], ev, evs. repeat split; try assumption.
      constructor.
Qed.

End Arms.

Section Handle.

Variable compute_size : Response -> Z.
Variable build_embeds : EmbedContent -> list EmbedContent.
Variable split_file : string -> bytes -> list (string * bytes).
Variable deliver : event -> bool.
Variable cloud : bool.

Let handle := handle_task compute_size build_embeds split_file deliver cloud.

(** A [File] payload is split by [split_file] and the chunks are sent in
    order to the session's current channel, each under its label; the first
    failed send ends the arm with [Err] and no chunk after it is sent. *)
Theorem file_arm_sends_chunks_in_order (settings : DiscordSettings)
  (response : Response) (f : ProtoFile) :
  field response = Some (FFile f) ->
  stops_at_first_failure deliver
    (map (fun '(label, chunk) => SendFiles (channel settings) label chunk)
       (split_file (filename f) (data f)))
    (snd (fst (handle settings response))) (snd (handle settings response)).
Proof.
  intros Hf. unfold handle, handle_task. rewrite Hf. cbn [channel].
  rewrite send_chunks_seq.
  pose proof (send_seq_spec deliver
                (map (fun '(label, chunk) => SendFiles (channel settings) label chunk)
                   (split_file (filename f) (data f)))) as H.
  destruct (send_seq _ _) as [sent r]. exact H.
Qed.

(** An [Embed] payload is turned into embeds by [build_embeds], and each is
    sent in order to the session's current channel, with the mentions found
    in its own title and description and its own snapshot attached; the
    first failed send ends the arm with [Err] and nothing after it is
    sent. *)
Theorem embed_arm_sends_embeds_in_order (settings : DiscordSettings)
  (response : Response) (e : EmbedContent) :
  field response = Some (FEmbed e) ->
  stops_at_first_failure deliver
    (map (fun e' => SendEmbed (channel settings) e'
                      (Mentions.extract_mentions (title e') (description e'))
                      (snapshot e'))
       (build_embeds e))
    (snd (fst (handle settings response))) (snd (handle settings response)).
Proof.
  intros He. unfold handle, handle_task. rewrite He. cbn [channel].
  rewrite send_embeds_seq.
  pose proof (send_seq_spec deliver
                (map (fun e' => SendEmbed (channel settings) e'
                                  (Mentions.extract_mentions (title e') (description e'))
                                  (snapshot e'))
                   (build_embeds e))) as H.
  destruct (send_seq _ _) as [sent r]. exact H.
Qed.

End Handle.

Definition sample_file : ProtoFile := {| filename := "log.txt"%string; data := [1; 2; 3] |}.

Definition sample_embed : EmbedContent :=
  {| title := "done <@42>"%string; description := ""%string; color := 0;
     author := ""%string; textfield := []; snapshot := Some sample_file |}.

Lemma file_arm_sends_chunks_in_order_witness :
  field {| field := Some (FFile sample_file) |} = Some (FFile sample_file) /\
  stops_at_first_failure (fun ev => match ev with SendFiles _ _ [2] => false | _ => true end)
    (map (fun '(label, chunk) => SendFiles (channel new_settings) label chunk)
       (Embedbuilder.split_file 1 (filename sample_file) (data sample_file)))
    (snd (fst (handle_task (fun _ => 0) (fun e => [e]) (Embedbuilder.split_file 1)
                 (fun ev => match ev with SendFiles _ _ [2] => false | _ => true end)
                 false new_settings {| field := Some (FFile sample_file) |})))
    (snd (handle_task (fun _ => 0) (fun e => [e]) (Embedbuilder.split_file 1)
            (fun ev => match ev with SendFiles _ _ [2] => false | _ => true end)
            false new_settings {| field := Some (FFile sample_file) |})).
Proof.
  split; [reflexivity|].
  apply (file_arm_sends_chunks_in_order (fun _ => 0) (fun e => [e])
           (Embedbuilder.split_file 1)
           (fun ev => match ev with SendFiles _ _ [2] => false | _ => true end) false
           new_settings {| field := Some (FFile sample_file) |} sample_file eq_refl).
Defined.

Lemma embed_arm_sends_embeds_in_order_witness :
  field {| field := Some (FEmbed sample_embed) |} = Some (FEmbed sample_embed) /\
  stops_at_first_failure (fun _ => true)
    (map (fun e' => SendEmbed (channel new_settings) e'
                      (Mentions.extract_mentions (title e') (description e'))
                      (snapshot e'))
       [sample_embed; sample_embed])
    (snd (fst (handle_task (fun _ => 0) (fun e => [e; e]) (fun n d => [(n, d)])
                 (fun _ => true) false new_settings
                 {| field := Some (FEmbed sample_embed) |})))
    (snd (handle_task (fun _ => 0) (fun e => [e; e]) (fun n d => [(n, d)])
            (fun _ => true) false new_settings {| field := Some (FEmbed sample_embed) |})).
Proof.
  split; [reflexivity|].
  apply (embed_arm_sends_embeds_in_order (fun _ => 0) (fun e => [e; e])
           (fun n d => [(n, d)]) (fun _ => true) false new_settings
           {| field := Some (FEmbed sample_embed) |} sample_embed eq_refl).
Defined.

End ArmFacts.

(** ** [Handler::message] and [main] *)

Module HandlerFacts.

Import Handler.

Lemma forward_all_downloaded (ch user : Z) (files : list (string * bytes)) :
  forward_attachments ch user (map (fun '(n, d) => (n, Some d)) files)
  = (map (fun '(n, d) => SendFile ch user n d) files, true).
Proof.
  induction files as [|[n d] files IH]; [reflexivity|].
  cbn [map forward_attachments]. rewrite IH. reflexivity.
Qed.

Lemma forward_failed_download (ch user : Z) (files : list (string * bytes))
  (n : string) (rest : list (string * option bytes)) :
  forward_attachments ch user (map (fun '(n, d) => (n, Some d)) files ++ (n, None) :: rest)
  = (map (fun '(n, d) => SendFile ch user n d) files, false).
Proof.
  induction files as [|[n' d] files IH]; [reflexivity|].
  cbn [map forward_attachments app]. rewrite IH. reflexivity.
Qed.

(** The bot's own messages are never relayed by content nor by
    attachment: the only possible calls are the statistics, and, in the
    health-check channel, the title of the message's single embed sent as
    a command. *)
Theorem own_message_never_relayed (hc : Z) (m : Message) :
  m_own m = true ->
  snd (message hc m) = true /\
  forall a, In a (fst (message hc m)) ->
    a = SendStats hc \/
    exists flag, m_channel m = hc /\ m_embed_titles m = [Some flag] /\
                 a = SendCommand hc (m_author m) flag.
Proof.
  intros Ho. unfold message. rewrite Ho.
  destruct (Z.eqb_spec (m_channel m) hc) as [Ec | Ec].
  - destruct (m_embed_titles m) as [|[flag|] [|t ts]] eqn:Et;
      split; try reflexivity; intros a Ha; cbn [fst andb] in Ha;
      destruct (String.eqb (m_content m) "/stats"); cbn [app In] in Ha;
      repeat destruct Ha as [<- | Ha]; try contradiction;
      first [left; rewrite Ec; reflexivity
            | right; exists flag; rewrite Ec; repeat split; reflexivity].
  - split; [reflexivity|]. intros a Ha. cbn [fst andb] in Ha. contradiction.
Qed.

(** A private message from anyone else is never relayed to the peers: the
    handler at most sends the statistics. *)
Theorem private_message_not_relayed (hc : Z) (m : Message) :
  m_own m = false -> m_private m = true ->
  snd (message hc m) = true /\
  forall a, In a (fst (message hc m)) -> a = SendStats hc.
Proof.
  intros Ho Hp. unfold message. rewrite Ho, Hp. split; [reflexivity|].
  intros a Ha. cbn [fst] in Ha. rewrite app_nil_r in Ha.
  destruct (Z.eqb_spec (m_channel m) hc) as [Ec | Ec]; cbn [andb] in Ha;
    [destruct (String.eqb (m_content m) "/stats")|]; cbn [In] in Ha;
    [destruct Ha as [<- | []]; rewrite Ec; reflexivity | contradiction | contradiction].
Qed.

(** Any other message (not the bot's, not private) is relayed as a command
    with its full text to the peers of its channel, then each attachment in
    order as a file; a ["/stats"] message in the health-check channel is
    relayed too, after the statistics.  A failed download panics the
    handler: the attachments before it have been relayed, none after. *)
Theorem ordinary_message_relayed (hc : Z) (m : Message) :
  m_own m = false -> m_private m = false ->
  let stats := if (m_channel m =? hc) && String.eqb (m_content m) "/stats"
               then [SendStats (m_channel m)] else [] in
  let command := SendCommand (m_channel m) (m_author m) (m_content m) in
  let sent := map (fun '(n, d) => SendFile (m_channel m) (m_author m) n d) in
  (forall files, m_attachments m = map (fun '(n, d) => (n, Some d)) files ->
     message hc m = (stats ++ command :: sent files, true)) /\
  (forall files n rest,
     m_attachments m = map (fun '(n, d) => (n, Some d)) files ++ (n, None) :: rest ->
     message hc m = (stats ++ command :: sent files, false)).
Proof.
  intros Ho Hp stats command sent. split.
  - intros files Ha. unfold message. rewrite Ho, Hp, Ha, forward_all_downloaded.
    reflexivity.
  - intros files n rest Ha. unfold message. rewrite Ho, Hp, Ha, forward_failed_download.
    reflexivity.
Qed.

(** [main] runs the mode of the first argument, the program name included,
    whose lower case is ["serve"] or ["healthcheck"], provided every
    argument before it is valid Unicode; the arguments after it are never
    looked at.  An argument that is not valid Unicode before any
    recognised one makes [main] panic.  Only when every argument is valid
    Unicode and none is recognised does it log the usage error. *)
Theorem first_recognised_argument_decides (to_lowercase : string -> string) :
  let unrecognised a :=
    exists s, a = Some s /\
      String.eqb (to_lowercase s) "serve" = false /\
      String.eqb (to_lowercase s) "healthcheck" = false in
  (forall pre a post,
     Forall unrecognised pre -> to_lowercase a = "serve"%string ->
     main_mode to_lowercase (pre ++ Some a :: post) = RunServe) /\
  (forall pre a post,
     Forall unrecognised pre -> to_lowercase a = "healthcheck"%string ->
     main_mode to_lowercase (pre ++ Some a :: post) = RunHealthcheck) /\
  (forall pre post,
     Forall unrecognised pre ->
     main_mode to_lowercase (pre ++ None :: post) = ArgsPanic) /\
  (forall args, main_mode to_lowercase args = Usage <-> Forall unrecognised args).
Proof.
  intros unrecognised.
  assert (Skip : forall pre rest, Forall unrecognised pre ->
            main_mode to_lowercase (pre ++ rest) = main_mode to_lowercase rest).
  { intros pre rest Hpre. induction Hpre as [|b pre (x & -> & Hs & Hh) _ IH];
      [reflexivity|].
    cbn [app main_mode]. rewrite Hs, Hh. exact IH. }
  split; [|split; [|split]].
  - intros pre a post Hpre Ha. rewrite Skip by exact Hpre.
    cbn [main_mode]. rewrite Ha. reflexivity.
  - intros pre a post Hpre Ha. rewrite Skip by exact Hpre.
    cbn [main_mode]. rewrite Ha. reflexivity.
  - intros pre post Hpre. rewrite Skip by exact Hpre. reflexivity.
  - intros args. induction args as [|[a|] args IH].
    + split; [constructor | reflexivity].
    + cbn [main_mode]. rewrite Forall_cons_iff, <- IH.
      unfold unrecognised.
      destruct (String.eqb (to_lowercase a) "serve") eqn:Es,
               (String.eqb (to_lowercase a) "healthcheck") eqn:Eh;
        (split; intros H;
         [discriminate | destruct H as [(x & Hx & Hs & Hh) _]; injection Hx as <-;
                         congruence])
        || (split; intros H;
            [split; [exists a; split; [reflexivity | split; assumption] | exact H]
            | destruct H as [_ H]; exact H]).
    + cbn [main_mode]. split; intros H; [discriminate|].
      inversion H as [|? ? (x & Hx & _) _]. discriminate Hx.
Qed.

Definition sample_user_message (hc : Z) : Message :=
  {| m_channel := hc; m_content := "/stats"%string; m_author := 7; m_own := false;
     m_private := false; m_embed_titles := [];
     m_attachments := [("a.gcode"%string, Some [1; 2]); ("b.gcode"%string, None);
                       ("c.gcode"%string, Some [3])] |}.

Lemma own_message_never_relayed_witness :
  let m := {| m_channel := 9; m_content := "/stats"%string; m_author := 1;
              m_own := true; m_private := false;
              m_embed_titles := [Some "flag-123"%string]; m_attachments := [] |} in
  m_own m = true /\
  snd (message 9 m) = true /\
  forall a, In a (fst (message 9 m)) ->
    a = SendStats 9 \/
    exists flag, m_channel m = 9 /\ m_embed_titles m = [Some flag] /\
                 a = SendCommand 9 (m_author m) flag.
Proof.
  intros m. split; [reflexivity|].
  apply (own_message_never_relayed 9 m). reflexivity.
Defined.

Lemma private_message_not_relayed_witness :
  let m := {| m_channel := 3; m_content := "G28"%string; m_author := 1;
              m_own := false; m_private := true; m_embed_titles := [];
              m_attachments := [("x"%string, Some [1])] |} in
  snd (message 9 m) = true /\
  forall a, In a (fst (message 9 m)) -> a = SendStats 9.
Proof.
  intros m. apply (private_message_not_relayed 9 m); reflexivity.
Defined.

Lemma ordinary_message_relayed_witness :
  message 9 (sample_user_message 9)
  = ([SendStats 9; SendCommand 9 7 "/stats"; SendFile 9 7 "a.gcode" [1; 2]], false).
Proof.
  apply (proj2 (ordinary_message_relayed 9 (sample_user_message 9) eq_refl eq_refl)
           [("a.gcode"%string, [1; 2])] "b.gcode"%string [("c.gcode"%string, Some [3])]).
  reflexivity.
Defined.

End HandlerFacts.
